(** * Shor's algorithm notebooks: classical post-processing

    A shallow embedding of the classical routines of the Qrisp tutorial
    notebooks ([is_prime], [find_period_classical], [classical_Shor],
    [get_r_candidates], [binary_to_float], [quantum_shor_qiskit]) and the
    properties their description states about them.

    Python integers are unbounded, so they are [Z]; [%] and [//] are floor
    operations and coincide with [Z.modulo] and [Z.div] for a non-zero
    divisor.  Exceptions and unbounded [while] loops are made explicit by
    the [outcome] monad below. *)

From Stdlib Require Import Ascii String.
From Stdlib Require Import ZArith Zpow_facts List Bool Lia Lqa QArith Qabs Sorted.
Import ListNotations.

Local Open Scope Z_scope.

(** ** Outcomes: a value, a raised exception, or a loop that is still
       running when the fuel of the model is used up *)

Inductive exn : Type :=
| ZeroDivisionError      (* [x % 0] *)
| ValueError             (* [random.randint] on an empty range *)
| PleaseSampleAgain      (* [Exception("Please sample again")] *)
| PleaseChooseAnotherA   (* [Exception("Please choose another a")] *)
| OverflowError          (* an integer that does not fit numpy's int64 *)
| SuccessRateError.      (* [Exception('The success rate should be between 0 and 1')] *)

Inductive outcome (A : Type) : Type :=
| Ret (x : A)
| Raise (e : exn)
| Diverge.

Arguments Ret {A} x.
Arguments Raise {A} e.
Arguments Diverge {A}.

Definition bind {A B : Type} (m : outcome A) (k : A -> outcome B) : outcome B :=
  match m with
  | Ret x => k x
  | Raise e => Raise e
  | Diverge => Diverge
  end.

Notation "x <- m ;; k" := (bind m (fun x => k))
  (at level 61, m at next level, right associativity).

(** Python's [x % n]. *)
Definition py_mod (x n : Z) : outcome Z :=
  if n =? 0 then Raise ZeroDivisionError else Ret (x mod n).

(** ** [is_prime] *)

(** The [while i * i <= n] loop; one unit of fuel per evaluation of the
    loop condition. *)
Fixpoint is_prime_loop (fuel : nat) (i n : Z) : outcome bool :=
  match fuel with
  | O => Diverge
  | S fuel' =>
      if i * i <=? n then
        if (n mod i =? 0) || (n mod (i + 2) =? 0) then Ret false
        else is_prime_loop fuel' (i + 6) n
      else Ret true
  end.

Definition is_prime (n : Z) : outcome bool :=
  if n <=? 1 then Ret false
  else if n <=? 3 then Ret true
  else if (n mod 2 =? 0) || (n mod 3 =? 0) then Ret false
  else is_prime_loop (Z.to_nat n) 5 n.

(** ** [find_period_classical] *)

(** [pow(g, e, N)] for a positive exponent and a non-zero modulus. *)
Definition pow_mod (g e N : Z) : Z := (g ^ e) mod N.

(** The [while pow(g, e, N) != 1] loop started at exponent [e]. *)
Fixpoint find_period_loop (fuel : nat) (g N e : Z) : outcome Z :=
  match fuel with
  | O => Diverge
  | S fuel' =>
      if negb (pow_mod g e N =? 1) then find_period_loop fuel' g N (e + 1)
      else Ret e
  end.

Definition find_period_classical (fuel : nat) (g N : Z) : outcome Z :=
  find_period_loop fuel g N 1.

(** ** [classical_Shor] *)

(** [random.randint(lo, hi)]: the value drawn is supplied by the caller of
    the model; an empty range raises. *)
Definition randint (lo hi drawn : Z) : outcome Z :=
  if hi <? lo then Raise ValueError else Ret drawn.

(** The [while True] loop.  [draws] are the successive values of
    [random.randint(2, N - 1)]; when they are used up the loop is still
    running.  [fuel] bounds each call of [find_period_classical]. *)
Fixpoint classical_Shor_loop (fuel : nat) (N : Z) (draws : list Z)
  : outcome (Z * Z) :=
  match draws with
  | [] => Diverge
  | d :: draws' =>
      a <- randint 2 (N - 1) d ;;
      if negb (Z.gcd a N =? 1) then Ret (Z.gcd a N, N / Z.gcd a N)
      else
        r <- find_period_classical fuel a N ;;
        if r mod 2 =? 0 then
          let x := pow_mod a (r / 2) N in
          let p := Z.gcd (x - 1) N in
          let q := Z.gcd (x + 1) N in
          if negb (p =? 1) && negb (p =? N) then Ret (p, N / p)
          else if negb (q =? 1) && negb (q =? N) then Ret (q, N / q)
          else classical_Shor_loop fuel N draws'
        else classical_Shor_loop fuel N draws'
  end.

Definition classical_Shor (fuel : nat) (N : Z) (draws : list Z)
  : outcome (Z * Z) :=
  if N mod 2 =? 0 then Ret (2, N / 2)
  else
    b <- is_prime N ;;
    if b then Ret (1, N)
    else classical_Shor_loop fuel N draws.

(** ** Double precision

    Python floats and numpy's [float64] are IEEE doubles: 53 significant
    bits, least exponent [-1074], round to nearest with ties to even.  A
    double is denoted by the rational it stands for; the magnitudes of this
    program stay far below the overflow threshold [2^1024]. *)

(** [n/d] rounded to the nearest integer, ties to the even one. *)
Definition round_half_even (n d : Z) : Z :=
  let q := n / d in
  let r := n mod d in
  if 2 * r <? d then q
  else if d <? 2 * r then q + 1
  else if Z.even q then q else q + 1.

(** [floor(log2(A/B))] for positive [A] and [B]. *)
Definition floor_log2_ratio (A B : Z) : Z :=
  if B <=? A then Z.log2 (A / B) else - Z.log2_up ((B + A - 1) / A).

(** The double nearest to the positive rational [A/B] is
    [double_mantissa A B * 2 ^ double_exponent A B]. *)
Definition double_exponent (A B : Z) : Z :=
  Z.max (floor_log2_ratio A B - 52) (-1074).

Definition double_mantissa (A B : Z) : Z :=
  let e := double_exponent A B in
  if 0 <=? e then round_half_even A (B * 2 ^ e)
  else round_half_even (A * 2 ^ (- e)) B.

(** That double as a rational. *)
Definition double_of_ratio (A B : Z) : Q :=
  let e := double_exponent A B in
  let m := double_mantissa A B in
  if 0 <=? e then inject_Z (m * 2 ^ e) else m # Z.to_pos (2 ^ (- e)).

(** The result of a double operation whose exact value is [x]. *)
Definition double_round (x : Q) : Q :=
  match Qnum x with
  | Z0 => 0%Q
  | Zpos _ => double_of_ratio (Qnum x) (Zpos (Qden x))
  | Zneg _ => (- double_of_ratio (- Qnum x) (Zpos (Qden x)))%Q
  end.

(** [int(x)] for the double [x] nearest to [A/B], [A] and [B] positive. *)
Definition double_trunc (A B : Z) : Z :=
  let e := double_exponent A B in
  let m := double_mantissa A B in
  if 0 <=? e then m * 2 ^ e else m / 2 ^ (- e).

(** The conversion of an [int64] to [float64]; the double it gives is an
    integer. *)
Definition float64_of_int (n : Z) : Z := Z.sgn n * double_trunc (Z.abs n) 1.

(** ** [binary_to_float] *)

(** The inner [for i, bit in enumerate(binary)] loop: [2 ** -(i + 1)] is a
    double (a power of two, or [0.0] once it underflows) and
    [decimal += ...] is a double addition. *)
Fixpoint binary_to_float_digits (i : nat) (binary : String.string) (decimal : Q) : Q :=
  match binary with
  | String.EmptyString => decimal
  | String.String bit rest =>
      binary_to_float_digits (S i) rest
        (if Ascii.eqb bit "1"%char
         then double_round
                (decimal + double_round (1 # Pos.pow 2 (Pos.of_succ_nat i)))%Q
         else decimal)
  end.

Definition binary_to_float (binaries : list String.string) : list Q :=
  map (fun binary => binary_to_float_digits 0 binary 0%Q) binaries.

(** ** [get_r_candidates] *)

(** A sympy [Rational]: numerator [rat_p] and denominator [rat_q]. *)
Record rational : Type := mk_rational { rat_p : Z; rat_q : Z }.

(** Modelled from the spec: sympy's [Rational(approx)], the rational
    approximation of the phase; it is the exact value of the double, in
    lowest terms. *)
Definition Rational (approx : Q) : rational :=
  let r := Qred approx in mk_rational (Qnum r) (Zpos (Qden r)).

(** Modelled from the spec: [p/q] on sympy integers, a convergent as a
    fraction in lowest terms with a positive denominator. *)
Definition rational_div (p q : Z) : rational :=
  let g := Z.gcd p q in
  mk_rational (Z.sgn q * p / g) (Z.abs q / g).

(** Modelled from the spec: sympy's [continued_fraction_iterator] is not part
    of the repository; the spec describes it as the continued-fraction
    expansion of the rational phase by the Euclidean algorithm on numerator
    and denominator.  Each round emits the integer part [i] of [n/d] and, when
    the fractional part is not zero, goes on with its reciprocal. *)
Fixpoint continued_fraction_iterator_loop (fuel : nat) (n d : Z) : outcome (list Z) :=
  match fuel with
  | O => Diverge
  | S fuel' =>
      let i := n / d in
      let n' := n - i * d in
      if n' =? 0 then Ret [i]
      else
        rest <- continued_fraction_iterator_loop fuel' d n' ;;
        Ret (i :: rest)
  end.

(** Modelled from the spec: [continued_fraction_iterator(x)] on a rational
    [x] with a positive denominator; the denominators of the successive
    rounds decrease, so [rat_q x] rounds are enough. *)
Definition continued_fraction_iterator (x : rational) : outcome (list Z) :=
  continued_fraction_iterator_loop (Z.to_nat (rat_q x)) (rat_p x) (rat_q x).

(** Modelled from the spec: sympy's [continued_fraction_convergents] is not
    part of the repository; the spec describes its result as the successive
    convergents of the expansion.  They follow the standard recurrence
    [p = a*p_1 + p_2], [q = a*q_1 + q_2], started from [0/1] and [1/0]. *)
Fixpoint continued_fraction_convergents_loop (p_2 q_2 p_1 q_1 : Z) (cf : list Z)
  : list rational :=
  match cf with
  | [] => []
  | a :: cf' =>
      let p := a * p_1 + p_2 in
      let q := a * q_1 + q_2 in
      rational_div p q :: continued_fraction_convergents_loop p_1 q_1 p q cf'
  end.

(** Modelled from the spec: [continued_fraction_convergents(cf)], the list
    of the convergents of the terms [cf]. *)
Definition continued_fraction_convergents (cf : list Z) : list rational :=
  continued_fraction_convergents_loop 0 1 1 0 cf.

Definition get_r_candidates (approx : Q) : outcome (list Z) :=
  cf <- continued_fraction_iterator (Rational approx) ;;
  Ret (map rat_q (continued_fraction_convergents cf)).

(** ** [quantum_shor_qiskit] *)

(** [set(...)]: one copy of every element. *)
Definition py_set (l : list Z) : list Z := nodup Z.eq_dec l.

(** [sorted(...)]: ascending order. *)
Fixpoint sorted_insert (x : Z) (l : list Z) : list Z :=
  match l with
  | [] => [x]
  | y :: l' => if x <=? y then x :: y :: l' else y :: sorted_insert x l'
  end.

Fixpoint sorted (l : list Z) : list Z :=
  match l with
  | [] => []
  | x :: l' => sorted_insert x (sorted l')
  end.

(** The [for cand in ...: if (a**cand)%N == 1: r = cand; break] loop with its
    [else: raise Exception("Please sample again")] clause.  The candidates
    are denominators of convergents, so [cand >= 1] and [a ^ cand] is the
    integer power [a**cand]. *)
Fixpoint accept_candidate (a N : Z) (cands : list Z) : outcome Z :=
  match cands with
  | [] => Raise PleaseSampleAgain
  | cand :: cands' =>
      m <- py_mod (a ^ cand) N ;;
      if m =? 1 then Ret cand else accept_candidate a N cands'
  end.

(** numpy's [int64]. *)
Definition int64_min : Z := - 2 ^ 63.
Definition int64_max : Z := 2 ^ 63 - 1.

(** A Python integer handed to a numpy function: it is taken as an [int64],
    and numpy raises [OverflowError] for one that is out of bounds. *)
Definition np_int64 (x : Z) : outcome Z :=
  if (int64_min <=? x) && (x <=? int64_max) then Ret x else Raise OverflowError.

(** Two's complement wrap-around of an [int64] result. *)
Definition wrap_int64 (x : Z) : Z := (x + 2 ^ 63) mod 2 ^ 64 - 2 ^ 63.

(** [np.gcd(x, y)] on Python integers: the gcd of the absolute values,
    computed in [int64]. *)
Definition np_gcd (x y : Z) : outcome Z :=
  x' <- np_int64 x ;;
  y' <- np_int64 y ;;
  Ret (wrap_int64 (Z.gcd x' y')).

(** [int(N/p)] for the [int64] value [p] that [np.gcd] returned: numpy
    converts both operands to [float64], divides them as doubles, and [int]
    truncates the quotient.  A zero divisor gives [inf] or [nan], which [int]
    refuses. *)
Definition int_true_div (N p : Z) : outcome Z :=
  n <- np_int64 N ;;
  if p =? 0 then
    if n =? 0 then Raise ValueError else Raise OverflowError
  else
    Ret (Z.sgn n * Z.sgn p *
         double_trunc (Z.abs (float64_of_int n)) (Z.abs (float64_of_int p))).

(** The body of [quantum_shor_qiskit] from the pooled list [r_candidates]
    on. *)
Definition quantum_shor_qiskit_candidates (a N : Z) (r_candidates : list Z)
  : outcome (Z * Z) :=
  r <- accept_candidate a N (sorted (py_set r_candidates)) ;;
  if negb (r mod 2 =? 0) then Raise PleaseChooseAnotherA
  else
    p <- np_gcd (a ^ (r / 2) + 1) N ;;
    q <- int_true_div N p ;;
    if p >? q then Ret (q, p) else Ret (p, q).

(** [sum([get_r_candidates(approx) for approx in ...], [])]. *)
Fixpoint pool_candidates (phases : list Q) : outcome (list Z) :=
  match phases with
  | [] => Ret []
  | approx :: phases' =>
      l <- get_r_candidates approx ;;
      rest <- pool_candidates phases' ;;
      Ret (l ++ rest)
  end.

(** [quantum_shor_qiskit(a, N)].  [meas_res] are the keys of the counts that
    the backend returns to [find_order_qiskit]; the circuit and its execution
    belong to the quantum library. *)
Definition quantum_shor_qiskit (a N : Z) (meas_res : list String.string)
  : outcome (Z * Z) :=
  r_candidates <- pool_candidates (binary_to_float meas_res) ;;
  quantum_shor_qiskit_candidates a N r_candidates.

(** The last lines of [quantum_shor_qiskit], from [p = np.gcd(...)] on, for
    the accepted period [r]. *)
Definition factor_recovery (a N r : Z) : outcome (Z * Z) :=
  p <- np_gcd (a ^ (r / 2) + 1) N ;;
  q <- int_true_div N p ;;
  if p >? q then Ret (q, p) else Ret (p, q).

(** ** [quantum_shor] and the validation cells of the first notebook *)

(** [quantum_shor(a, N)]: the keys of [find_order]'s measurement are the
    phases themselves; the [print] of the measurement is left out. *)
Definition quantum_shor (a N : Z) (meas_res : list Q) : outcome (Z * Z) :=
  r_candidates <- pool_candidates meas_res ;;
  quantum_shor_qiskit_candidates a N r_candidates.

(** Cells [ea599145] and [935299e9] of the first notebook: the scan runs over
    the pooled candidates in the order they were produced, and the cell after
    it computes [g = np.gcd(a**(r//2)+1, N)]. *)
Definition period_validation_cells (a N : Z) (r_candidates : list Z) : outcome Z :=
  r <- accept_candidate a N r_candidates ;;
  if negb (r mod 2 =? 0) then Raise PleaseChooseAnotherA
  else np_gcd (a ^ (r / 2) + 1) N.

(** ** [error_rate_upper_bound]

    The routine works on doubles: [success_rate] is a Python float, and
    [np.log(success_rate)/V] and [1 - ...] are float64 operations, which
    give an infinity or NaN where Python's own floats would raise. *)

(** A double: not-a-number, an infinity, or a finite value.  The sign of a
    zero is not kept. *)
Inductive float64 : Type :=
| NaN : float64
| Inf (negative : bool) : float64
| Finite (x : Q) : float64.

(** Rounding to a double, with the overflow to an infinity. *)
Definition float64_round (x : Q) : float64 :=
  let r := double_round x in
  if Qle_bool (inject_Z (2 ^ 1024)) r then Inf false
  else if Qle_bool r (inject_Z (- 2 ^ 1024)) then Inf true
  else Finite r.

(** The double of a Python int, as the division by [V] takes it:
    [OverflowError] ("int too large to convert to float") when the int
    rounds out of the range of the doubles. *)
Definition float64_of_pyint (n : Z) : outcome float64 :=
  let m := float64_of_int n in
  if Z.abs m <? 2 ^ 1024 then Ret (Finite (inject_Z m)) else Raise OverflowError.

(** [x <= y] and [x < y] on doubles: false as soon as one side is NaN. *)
Definition float64_le (x y : float64) : bool :=
  match x, y with
  | NaN, _ | _, NaN => false
  | Inf true, _ | _, Inf false => true
  | Inf false, _ | _, Inf true => false
  | Finite u, Finite v => Qle_bool u v
  end.

Definition float64_lt (x y : float64) : bool :=
  match x, y with
  | NaN, _ | _, NaN => false
  | Inf false, _ | _, Inf true => false
  | Inf true, _ | _, Inf false => true
  | Finite u, Finite v => negb (Qle_bool v u)
  end.

Definition Q_negative (x : Q) : bool := Qnum x <? 0.

(** [x / y] on doubles as numpy divides them: no exception, a zero divisor
    gives an infinity or NaN.  A zero divisor is [+0.0], the double of the
    int 0. *)
Definition float64_div (x y : float64) : float64 :=
  match x, y with
  | NaN, _ | _, NaN => NaN
  | Inf _, Inf _ => NaN
  | Inf s, Finite v => Inf (xorb s (Q_negative v))
  | Finite _, Inf _ => Finite 0
  | Finite u, Finite v =>
      if Qnum v =? 0
      then if Qnum u =? 0 then NaN else Inf (Q_negative u)
      else float64_round (u / v)
  end.

(** [x - y] on doubles. *)
Definition float64_sub (x y : float64) : float64 :=
  match x, y with
  | NaN, _ | _, NaN => NaN
  | Inf s, Inf t => if Bool.eqb s t then NaN else Inf s
  | Inf s, Finite _ => Inf s
  | Finite _, Inf t => Inf (negb t)
  | Finite u, Finite v => float64_round (u - v)
  end.

Section ErrorRate.

(** [np.log] and [np.exp] on doubles are taken as they are. *)
Variables np_log np_exp : float64 -> float64.

(** [error_rate_upper_bound(V, success_rate)] for an int [V] and a float
    [success_rate]. *)
Definition error_rate_upper_bound (V : Z) (success_rate : float64) : outcome float64 :=
  if float64_le success_rate (Finite 0) || float64_lt (Finite 1) success_rate
  then Raise SuccessRateError
  else v <- float64_of_pyint V ;;
       Ret (float64_sub (Finite 1) (np_exp (float64_div (np_log success_rate) v))).

End ErrorRate.

(** ** Predicates of the statements *)

(** What the loop of [is_prime] has tested when it answers [True]: no
    [i + 6k] and no [i + 6k + 2] with [(i + 6k)^2 <= n] divides [n]. *)
Definition no_divisor_from (i n : Z) : Prop :=
  forall k, 0 <= k -> (i + 6 * k) * (i + 6 * k) <= n ->
            n mod (i + 6 * k) <> 0 /\ n mod (i + 6 * k + 2) <> 0.

(** The convergents [p_k / q_k] of the terms [cf] as pairs, by the recurrence
    alone (nothing is reduced). *)
Fixpoint convergent_pairs (p_2 q_2 p_1 q_1 : Z) (cf : list Z) : list (Z * Z) :=
  match cf with
  | [] => []
  | a :: cf' =>
      (a * p_1 + p_2, a * q_1 + q_2)
        :: convergent_pairs p_1 q_1 (a * p_1 + p_2) (a * q_1 + q_2) cf'
  end.

(** The last of them; [(p_1, q_1)] when there is no term. *)
Fixpoint last_convergent (p_2 q_2 p_1 q_1 : Z) (cf : list Z) : Z * Z :=
  match cf with
  | [] => (p_1, q_1)
  | a :: cf' => last_convergent p_1 q_1 (a * p_1 + p_2) (a * q_1 + q_2) cf'
  end.

(** [x] fits numpy's [int64]. *)
Definition int64 (x : Z) : Prop := int64_min <= x <= int64_max.

(** The candidate [r] passes the test of the loop. *)
Definition valid_period (a N r : Z) : Prop := (a ^ r) mod N = 1.

(** [int(binary, 2)], reading every character other than ['1'] as a zero
    bit, continued from the value [acc] of the bits already read. *)
Fixpoint bits_value (binary : String.string) (acc : Z) : Z :=
  match binary with
  | String.EmptyString => acc
  | String.String bit rest =>
      bits_value rest (2 * acc + (if Ascii.eqb bit "1"%char then 1 else 0))
  end.

(** [x] is an integer multiple of [2^-k]. *)
Definition dyadic (k : Z) (x : Q) : Prop :=
  exists K : Z, Qnum x * 2 ^ k = K * Zpos (Qden x).

(** [r] is the multiplicative order of [a] modulo [N]. *)
Definition is_order (a N r : Z) : Prop :=
  0 < r /\ (a ^ r) mod N = 1 /\ forall e, 0 < e < r -> (a ^ e) mod N <> 1.

(** [r] is the smallest candidate of the pool that passes the test. *)
Definition accepted_period (a N : Z) (r_candidates : list Z) (r : Z) : Prop :=
  In r r_candidates /\ valid_period a N r /\
  forall c, In c r_candidates -> valid_period a N c -> r <= c.

(** [s] lies in the interval [(0, 1]]. *)
Definition in_unit_interval (s : float64) : Prop :=
  exists x, s = Finite x /\ (0 < x)%Q /\ (x <= 1)%Q.

(** The guard of [error_rate_upper_bound]. *)
Definition success_rate_refused (s : float64) : bool :=
  float64_le s (Finite 0) || float64_lt (Finite 1) s.

(** * Properties *)

(** ** The outcome monad *)

Lemma bind_Ret_inv {A B : Type} (m : outcome A) (k : A -> outcome B) (y : B) :
  bind m k = Ret y -> exists x, m = Ret x /\ k x = Ret y.
Proof.
  destruct m as [x | e |]; simpl; intros H; try discriminate.
  exists x; split; [reflexivity | exact H].
Qed.

(** ** Primality test *)

Section IsPrime.

Lemma no_divisor_from_step i n :
  n mod i <> 0 -> n mod (i + 2) <> 0 ->
  no_divisor_from (i + 6) n -> no_divisor_from i n.
Proof.
  intros Hi Hi2 Hrec k Hk Hsq.
  destruct (Z.eq_dec k 0) as [-> | Hk0].
  - rewrite Z.mul_0_r, Z.add_0_r. split; assumption.
  - specialize (Hrec (k - 1) ltac:(lia)).
    replace (i + 6 + 6 * (k - 1)) with (i + 6 * k) in Hrec by ring.
    apply Hrec; exact Hsq.
Qed.

Lemma is_prime_loop_spec fuel :
  forall i n, 5 <= i -> n - i < Z.of_nat fuel -> (0 < fuel)%nat ->
  exists b, is_prime_loop fuel i n = Ret b /\ (b = true <-> no_divisor_from i n).
Proof.
  induction fuel as [| fuel IH]; intros i n Hi Hfuel Hpos; [lia |].
  simpl. destruct (Z.leb_spec (i * i) n) as [Hsq | Hsq].
  - destruct (Z.eqb_spec (n mod i) 0) as [Hd | Hd]; simpl.
    + exists false; split; [reflexivity |]. split; [discriminate |].
      intros H. specialize (H 0 ltac:(lia)).
      rewrite Z.mul_0_r, Z.add_0_r in H. destruct (H Hsq); contradiction.
    + destruct (Z.eqb_spec (n mod (i + 2)) 0) as [Hd2 | Hd2].
      * exists false; split; [reflexivity |]. split; [discriminate |].
        intros H. specialize (H 0 ltac:(lia)).
        rewrite Z.mul_0_r, Z.add_0_r in H. destruct (H Hsq); contradiction.
      * destruct (IH (i + 6) n) as (b & Hb & Hiff); try nia.
        exists b; split; [exact Hb |]. rewrite Hiff. split.
        -- apply no_divisor_from_step; assumption.
        -- intros H k Hk Hle.
           specialize (H (k + 1) ltac:(lia)).
           replace (i + 6 * (k + 1)) with (i + 6 + 6 * k) in H by ring.
           apply H; exact Hle.
  - exists true; split; [reflexivity |]. split; [| reflexivity].
    intros _ k Hk Hle. nia.
Qed.

Lemma mod_neq_0_not_divide n d : 0 < d -> n mod d <> 0 -> ~ (d | n).
Proof.
  intros Hd Hm Hdiv. apply Hm. apply Z.mod_divide; [lia | exact Hdiv].
Qed.

(** A proper divisor gives one whose square is at most [n]. *)
Lemma small_divisor n d :
  1 < d < n -> (d | n) -> exists m, 1 < m /\ m * m <= n /\ (m | n).
Proof.
  intros Hd [c Hc]. subst n.
  destruct (Z_le_gt_dec d c) as [Hle | Hgt].
  - exists d; repeat split; try lia; try nia. exists c; ring.
  - exists c; repeat split; try nia. exists d; ring.
Qed.

Lemma no_divisor_prime n :
  3 < n -> n mod 2 <> 0 -> n mod 3 <> 0 -> no_divisor_from 5 n -> Z.prime n.
Proof.
  intros Hn H2 H3 Hloop. split; [lia |].
  intros d Hd Hdiv.
  destruct (small_divisor n d Hd Hdiv) as (m & Hm1 & Hmsq & Hmdiv).
  assert (Hm6 : m = 6 * (m / 6) + m mod 6) by (apply Z.div_mod; lia).
  assert (Hr : 0 <= m mod 6 < 6) by (apply Z.mod_pos_bound; lia).
  set (t := m / 6) in *. set (s := m mod 6) in *.
  assert (Hcases : s = 0 \/ s = 1 \/ s = 2 \/ s = 3 \/ s = 4 \/ s = 5) by lia.
  assert (Heven : (2 | m) -> False).
  { intros H. apply (mod_neq_0_not_divide n 2); [lia | exact H2 |].
    eapply Z.divide_trans; eassumption. }
  assert (Hthree : (3 | m) -> False).
  { intros H. apply (mod_neq_0_not_divide n 3); [lia | exact H3 |].
    eapply Z.divide_trans; eassumption. }
  destruct Hcases as [Hs | [Hs | [Hs | [Hs | [Hs | Hs]]]]].
  - apply Heven. exists (3 * t). lia.
  - assert (Ht : 1 <= t) by lia.
    destruct (Hloop (t - 1) ltac:(lia) ltac:(nia)) as [_ Hnd].
    replace (5 + 6 * (t - 1) + 2) with m in Hnd by lia.
    apply (mod_neq_0_not_divide n m); [lia | exact Hnd | exact Hmdiv].
  - apply Heven. exists (3 * t + 1). lia.
  - apply Hthree. exists (2 * t + 1). lia.
  - apply Heven. exists (3 * t + 2). lia.
  - assert (Ht : 0 <= t) by lia.
    destruct (Hloop t Ht ltac:(nia)) as [Hnd _].
    replace (5 + 6 * t) with m in Hnd by lia.
    apply (mod_neq_0_not_divide n m); [lia | exact Hnd | exact Hmdiv].
Qed.

Lemma prime_no_small_divisor n d : Z.prime n -> 1 < d < n -> n mod d <> 0.
Proof.
  intros Hp Hd Hm.
  apply Z.mod_divide in Hm; [| lia].
  destruct (Z.divide_prime_r d n Hp Hm) as [H | [H | [H | H]]]; lia.
Qed.

Lemma prime_no_divisor_from n : Z.prime n -> no_divisor_from 5 n.
Proof.
  intros Hp k Hk Hsq. split; apply prime_no_small_divisor; try assumption; nia.
Qed.

Lemma is_prime_spec n :
  exists b, is_prime n = Ret b /\ (b = true <-> Z.prime n).
Proof.
  unfold is_prime.
  destruct (Z.leb_spec n 1) as [H1 | H1].
  { exists false; split; [reflexivity |]. split; [discriminate |].
    intros [Hp _]; lia. }
  destruct (Z.leb_spec n 3) as [H3 | H3].
  { exists true; split; [reflexivity |]. split; [| reflexivity]. intros _.
    assert (Hn : n = 2 \/ n = 3) by lia.
    destruct Hn as [-> | ->]; [apply Z.prime_2 | apply Z.prime_3]. }
  destruct (Z.eqb_spec (n mod 2) 0) as [Hm2 | Hm2]; simpl.
  { exists false; split; [reflexivity |]. split; [discriminate |].
    intros Hp. exfalso. apply (prime_no_small_divisor n 2 Hp); [lia | exact Hm2]. }
  destruct (Z.eqb_spec (n mod 3) 0) as [Hm3 | Hm3].
  { exists false; split; [reflexivity |]. split; [discriminate |].
    intros Hp. exfalso. apply (prime_no_small_divisor n 3 Hp); [lia | exact Hm3]. }
  destruct (is_prime_loop_spec (Z.to_nat n) 5 n) as (b & Hb & Hiff); try lia.
  exists b; split; [exact Hb |]. rewrite Hiff. split.
  - apply no_divisor_prime; assumption.
  - apply prime_no_divisor_from.
Qed.

Lemma is_prime_true_iff n : is_prime n = Ret true <-> Z.prime n.
Proof.
  destruct (is_prime_spec n) as (b & Hb & Hiff). rewrite Hb. split.
  - intros H. apply Hiff. congruence.
  - intros H. apply Hiff in H. congruence.
Qed.

End IsPrime.

(** C10: [is_prime] always returns, and it returns [True] exactly on the
    primes; in particular it returns [False] for every [n <= 1] and [True]
    for 2 and 3. *)
Theorem is_prime_correct (n : Z) :
  (exists b, is_prime n = Ret b) /\
  (is_prime n = Ret true <-> Z.prime n) /\
  (is_prime n = Ret false <-> ~ Z.prime n) /\
  (n <= 1 -> is_prime n = Ret false) /\
  is_prime 2 = Ret true /\ is_prime 3 = Ret true.
Proof.
  destruct (is_prime_spec n) as (b & Hb & Hiff).
  split; [exists b; exact Hb |].
  split; [| split; [| split; [| split; reflexivity]]].
  - apply is_prime_true_iff.
  - rewrite Hb. split.
    + intros H Hp. apply Hiff in Hp. congruence.
    + intros H. destruct b; [| reflexivity]. exfalso. apply H, Hiff. reflexivity.
  - intros Hn. unfold is_prime.
    destruct (Z.leb_spec n 1); [reflexivity | lia].
Qed.

(** ** Brute-force order finding *)

Section FindPeriod.

Variables g N : Z.

Lemma find_period_loop_found fuel :
  forall e r, e <= r -> r - e < Z.of_nat fuel ->
  pow_mod g r N = 1 ->
  (forall e', e <= e' < r -> pow_mod g e' N <> 1) ->
  find_period_loop fuel g N e = Ret r.
Proof.
  induction fuel as [| fuel IH]; intros e r Her Hfuel Hr Hmin; [lia |].
  simpl. destruct (Z.eqb_spec (pow_mod g e N) 1) as [He | He]; simpl.
  - destruct (Z.eq_dec e r) as [-> | Hne]; [reflexivity |].
    exfalso. apply (Hmin e); [lia | exact He].
  - assert (e <> r) by congruence.
    apply IH; try lia. intros e' He'. apply Hmin. lia.
Qed.

(** Either some exponent of the window [e, e + n) passes the test, and
    then there is a least one, or none does. *)
Lemma least_period_in_window (n : nat) :
  forall e,
    (exists r, e <= r < e + Z.of_nat n /\ pow_mod g r N = 1 /\
               forall e', e <= e' < r -> pow_mod g e' N <> 1) \/
    (forall e', e <= e' < e + Z.of_nat n -> pow_mod g e' N <> 1).
Proof.
  induction n as [| n IH]; intros e; [right; intros; lia |].
  destruct (Z.eq_dec (pow_mod g e N) 1) as [He | He].
  - left. exists e. split; [lia |]. split; [exact He |]. intros; lia.
  - destruct (IH (e + 1)) as [(r & Hr & Hv & Hmin) | Hnone].
    + left. exists r. split; [lia |]. split; [exact Hv |].
      intros e' He'. destruct (Z.eq_dec e' e) as [-> | Hne]; [exact He |].
      apply Hmin. lia.
    + right. intros e' He'. destruct (Z.eq_dec e' e) as [-> | Hne]; [exact He |].
      apply Hnone. lia.
Qed.

Hypothesis HN : 1 < N.
Hypothesis Hcoprime : Z.gcd g N = 1.

Lemma cong_1_of_divide x : (N | x - 1) -> x mod N = 1.
Proof.
  intros [k Hk]. replace x with (1 + k * N) by lia.
  rewrite Z_mod_plus_full. apply Z.mod_small. lia.
Qed.

(** Powers of a unit cancel: equal residues of [g^i] and [g^j] give a
    period [j - i]. *)
Lemma pow_mod_cancel i j :
  0 <= i <= j -> pow_mod g i N = pow_mod g j N -> pow_mod g (j - i) N = 1.
Proof.
  unfold pow_mod. intros Hij Heq.
  apply cong_1_of_divide.
  apply (Z.gauss N (g ^ i)).
  - replace (g ^ i * (g ^ (j - i) - 1)) with (g ^ j - g ^ i).
    + apply Z.mod_divide; [lia |].
      rewrite Zminus_mod, Heq, Z.sub_diag. apply Z.mod_0_l. lia.
    + replace j with (i + (j - i)) at 1 by lia.
      rewrite Z.pow_add_r by lia. ring.
  - rewrite Z.gcd_comm. apply Z.coprime_pow_l; [lia | exact Hcoprime].
Qed.

Lemma pow_mod_unit i : 0 <= i -> 1 <= pow_mod g i N < N.
Proof.
  intros Hi. unfold pow_mod.
  pose proof (Z.mod_pos_bound (g ^ i) N ltac:(lia)) as Hb.
  destruct (Z.eq_dec ((g ^ i) mod N) 0) as [H0 | H0]; [| lia].
  exfalso. apply Z.mod_divide in H0; [| lia].
  pose proof (Z.coprime_pow_l g N i Hi Hcoprime) as Hc.
  unfold Z.coprime in Hc.
  assert (Hd : (N | Z.gcd (g ^ i) N)) by (apply Z.gcd_greatest; [exact H0 | apply Z.divide_refl]).
  rewrite Hc in Hd. apply Z.divide_1_r in Hd. lia.
Qed.

(** Pigeonhole: the [N] residues of [g^0 .. g^(N-1)] lie among the [N - 1]
    values [1 .. N-1], so some exponent below [N] passes the test. *)
Lemma period_below_modulus :
  ~ (forall e, 1 <= e < 1 + Z.of_nat (Z.to_nat (N - 1)) -> pow_mod g e N <> 1).
Proof.
  intros Hnone.
  set (n := Z.to_nat N).
  set (residues := map (fun i => pow_mod g (Z.of_nat i) N) (seq 0 n)).
  set (units := map Z.of_nat (seq 1 (n - 1))).
  assert (Hincl : incl residues units).
  { intros x Hx. apply in_map_iff in Hx. destruct Hx as (i & <- & Hi).
    apply in_seq in Hi.
    pose proof (pow_mod_unit (Z.of_nat i) ltac:(lia)) as Hu.
    apply in_map_iff. exists (Z.to_nat (pow_mod g (Z.of_nat i) N)).
    split; [lia |]. apply in_seq. lia. }
  assert (Hnodup : NoDup residues).
  { apply NoDup_map_NoDup_ForallPairs; [| apply seq_NoDup].
    intros i j Hi Hj Heq. apply in_seq in Hi, Hj.
    destruct (Nat.lt_trichotomy i j) as [Hlt | [Heqij | Hgt]]; [| exact Heqij |]; exfalso.
    - apply (Hnone (Z.of_nat j - Z.of_nat i)); [lia |].
      apply pow_mod_cancel; [lia | exact Heq].
    - apply (Hnone (Z.of_nat i - Z.of_nat j)); [lia |].
      apply pow_mod_cancel; [lia | symmetry; exact Heq]. }
  pose proof (NoDup_incl_length Hnodup Hincl) as Hlen.
  unfold residues, units in Hlen.
  rewrite !length_map, !length_seq in Hlen. lia.
Qed.

Lemma order_exists :
  exists e, 0 < e < N /\ pow_mod g e N = 1 /\
            forall e', 0 < e' < e -> pow_mod g e' N <> 1.
Proof.
  destruct (least_period_in_window (Z.to_nat (N - 1)) 1)
    as [(r & Hr & Hv & Hmin) | Hnone].
  - exists r. split; [lia |]. split; [exact Hv |].
    intros e' He'. apply Hmin. lia.
  - exfalso. apply period_below_modulus. exact Hnone.
Qed.

End FindPeriod.

(** C6: for [N > 1] and [g] coprime to [N], [find_period_classical] returns
    the multiplicative order [e] of [g] modulo [N], the least positive
    exponent with [g^e mod N = 1]; it is below [N], and [e] evaluations of
    the loop condition are enough, so [N] are. *)
Theorem find_period_classical_order (g N : Z) :
  1 < N -> Z.gcd g N = 1 ->
  exists e,
    0 < e < N /\
    (g ^ e) mod N = 1 /\
    (forall e', 0 < e' < e -> (g ^ e') mod N <> 1) /\
    (forall fuel, (Z.to_nat e <= fuel)%nat -> find_period_classical fuel g N = Ret e) /\
    find_period_classical (Z.to_nat N) g N = Ret e.
Proof.
  intros HN Hc.
  destruct (order_exists g N HN Hc) as (e & He & Hv & Hmin).
  assert (Hfuel : forall fuel, (Z.to_nat e <= fuel)%nat ->
                               find_period_classical fuel g N = Ret e).
  { intros fuel Hle. unfold find_period_classical.
    apply find_period_loop_found.
    - lia.
    - lia.
    - exact Hv.
    - intros e' He'. apply Hmin. lia. }
  exists e. split; [exact He |]. split; [exact Hv |]. split; [exact Hmin |].
  split; [exact Hfuel |]. apply Hfuel. lia.
Qed.

Lemma find_period_classical_order_witness :
  exists e,
    0 < e < 15 /\
    (2 ^ e) mod 15 = 1 /\
    (forall e', 0 < e' < e -> (2 ^ e') mod 15 <> 1) /\
    (forall fuel, (Z.to_nat e <= fuel)%nat -> find_period_classical fuel 2 15 = Ret e) /\
    find_period_classical (Z.to_nat 15) 2 15 = Ret e.
Proof.
  apply (find_period_classical_order 2 15); [lia | reflexivity].
Defined.

(** ** The classical driver *)

Section ClassicalShor.

Lemma even_pair N : N mod 2 = 0 -> 2 * (N / 2) = N.
Proof.
  intros H. pose proof (Z.div_mod N 2 ltac:(lia)). lia.
Qed.

(** A divisor [p = gcd(x, N)] other than [1] and [N] splits [N]
    properly. *)
Lemma gcd_pair_nontrivial x N :
  1 < N -> Z.gcd x N <> 1 -> Z.gcd x N <> N ->
  Z.gcd x N * (N / Z.gcd x N) = N /\
  1 < Z.gcd x N < N /\ 1 < N / Z.gcd x N < N.
Proof.
  intros HN H1 HNe.
  pose proof (Z.gcd_nonneg x N) as Hnn.
  destruct (Z.gcd_divide_r x N) as [c Hc].
  set (p := Z.gcd x N) in *.
  assert (Hp0 : p <> 0) by (intros E; rewrite E in Hc; lia).
  assert (Hq : N / p = c) by (rewrite Hc at 1; apply Z.div_mul; exact Hp0).
  rewrite Hq.
  assert (Hp1 : 1 < p) by (unfold p in *; lia).
  assert (Hc0 : 0 < c) by nia.
  assert (Hc1 : c <> 1) by (intros E; subst c; lia).
  repeat split; nia.
Qed.

Lemma classical_Shor_loop_nontrivial fuel N :
  1 < N ->
  forall draws p q,
    Forall (fun a => 2 <= a <= N - 1) draws ->
    classical_Shor_loop fuel N draws = Ret (p, q) ->
    p * q = N /\ 1 < p < N /\ 1 < q < N.
Proof.
  intros HN draws. induction draws as [| d draws IH]; intros p q Hrange Heq.
  - discriminate.
  - inversion Hrange as [| ? ? Hd Hrest]; subst.
    simpl in Heq. unfold randint in Heq.
    destruct (Z.ltb_spec (N - 1) 2) as [Hempty | _]; [discriminate |].
    simpl in Heq.
    destruct (Z.eqb_spec (Z.gcd d N) 1) as [Hg | Hg]; simpl in Heq.
    + apply bind_Ret_inv in Heq. destruct Heq as (r & _ & Heq).
      destruct (r mod 2 =? 0); [| apply IH; assumption].
      set (x := pow_mod d (r / 2) N) in *.
      destruct (Z.eqb_spec (Z.gcd (x - 1) N) 1) as [Hp1 | Hp1];
        destruct (Z.eqb_spec (Z.gcd (x - 1) N) N) as [Hp2 | Hp2]; simpl in Heq;
        try (injection Heq as <- <-; apply gcd_pair_nontrivial; assumption);
        (destruct (Z.eqb_spec (Z.gcd (x + 1) N) 1) as [Hq1 | Hq1];
         destruct (Z.eqb_spec (Z.gcd (x + 1) N) N) as [Hq2 | Hq2]; simpl in Heq;
         try (injection Heq as <- <-; apply gcd_pair_nontrivial; assumption);
         apply IH; assumption).
    + injection Heq as <- <-. apply gcd_pair_nontrivial; try assumption.
      intros E. pose proof (Z.gcd_divide_l d N) as Hdiv. rewrite E in Hdiv.
      apply Z.divide_pos_le in Hdiv; lia.
Qed.

Lemma classical_Shor_loop_cofactor fuel N :
  forall draws p q,
    classical_Shor_loop fuel N draws = Ret (p, q) -> q = N / p.
Proof.
  intros draws. induction draws as [| d draws IH]; intros p q Heq.
  - discriminate.
  - simpl in Heq. unfold randint in Heq.
    destruct (N - 1 <? 2); [discriminate |]. simpl in Heq.
    destruct (Z.gcd d N =? 1); simpl in Heq.
    + apply bind_Ret_inv in Heq. destruct Heq as (r & _ & Heq).
      destruct (r mod 2 =? 0); [| apply IH; assumption].
      set (x := pow_mod d (r / 2) N) in *.
      destruct (negb (Z.gcd (x - 1) N =? 1) && negb (Z.gcd (x - 1) N =? N)).
      * injection Heq as <- <-. reflexivity.
      * destruct (negb (Z.gcd (x + 1) N =? 1) && negb (Z.gcd (x + 1) N =? N)).
        -- injection Heq as <- <-. reflexivity.
        -- apply IH; assumption.
    + injection Heq as <- <-. reflexivity.
Qed.

Lemma odd_prime_not_even N : Z.prime N -> N <> 2 -> N mod 2 <> 0.
Proof.
  intros Hp H2. apply prime_no_small_divisor; [exact Hp |].
  destruct Hp as [H1 _]. lia.
Qed.

End ClassicalShor.

(** C4, as the code has it: for every odd prime [N] the driver returns
    [(1, N)], whatever the random draws; the even test comes first, so the
    prime 2 leaves through it with [(2, 1)]. *)
Theorem classical_Shor_prime (fuel : nat) (N : Z) (draws : list Z) :
  Z.prime N ->
  classical_Shor fuel N draws = Ret (if N =? 2 then (2, 1) else (1, N)).
Proof.
  intros Hp. destruct (Z.eqb_spec N 2) as [-> | H2]; [reflexivity |].
  unfold classical_Shor.
  destruct (Z.eqb_spec (N mod 2) 0) as [He | _].
  - exfalso. exact (odd_prime_not_even N Hp H2 He).
  - destruct (is_prime_spec N) as (b & Hb & Hiff). rewrite Hb. simpl.
    apply Hiff in Hp. subst b. reflexivity.
Qed.

Lemma classical_Shor_prime_witness :
  classical_Shor 0 7 [] = Ret (1, 7).
Proof.
  apply (classical_Shor_prime 0 7 []).
  apply (is_prime_true_iff 7). reflexivity.
Defined.

(** C4 as stated fails at the prime 2: the driver returns [(2, 1)]. *)
Lemma classical_Shor_prime_2_counterexample :
  ~ (forall (fuel : nat) (N : Z) (draws : list Z),
        Z.prime N -> 2 <= N -> classical_Shor fuel N draws = Ret (1, N)).
Proof.
  intros H. specialize (H 0%nat 2 [] Z.prime_2 ltac:(lia)).
  discriminate H.
Qed.

(** C5: a pair returned for a composite [N] is a proper factorisation, on
    the even path, the [gcd(a, N) != 1] path and the even-order path. *)
Theorem classical_Shor_composite_nontrivial
        (fuel : nat) (N : Z) (draws : list Z) (p q : Z) :
  1 < N -> ~ Z.prime N ->
  Forall (fun a => 2 <= a <= N - 1) draws ->
  classical_Shor fuel N draws = Ret (p, q) ->
  p * q = N /\ 1 < p < N /\ 1 < q < N.
Proof.
  intros HN Hcomp Hrange. unfold classical_Shor.
  destruct (Z.eqb_spec (N mod 2) 0) as [He | Ho].
  - intros Heq. injection Heq as <- <-.
    pose proof (even_pair N He) as H2.
    assert (N <> 2) by (intros ->; apply Hcomp, Z.prime_2).
    lia.
  - destruct (is_prime_spec N) as (b & Hb & Hiff). rewrite Hb. simpl.
    destruct b.
    + exfalso. apply Hcomp, Hiff. reflexivity.
    + apply classical_Shor_loop_nontrivial; assumption.
Qed.

Lemma classical_Shor_composite_nontrivial_witness :
  5 * 3 = 15 /\ 1 < 5 < 15 /\ 1 < 3 < 15.
Proof.
  apply (classical_Shor_composite_nontrivial 20 15 [5] 5 3).
  - lia.
  - intros Hp. apply (is_prime_true_iff 15) in Hp. vm_compute in Hp. discriminate Hp.
  - repeat constructor; lia.
  - reflexivity.
Defined.

(** ** Period validation and factor recovery *)

Section Sorted.

Lemma sorted_insert_In x l y : In y (sorted_insert x l) <-> y = x \/ In y l.
Proof.
  induction l as [| z l IH]; simpl.
  - intuition.
  - destruct (x <=? z); simpl; [intuition | rewrite IH; intuition].
Qed.

Lemma sorted_In l y : In y (sorted l) <-> In y l.
Proof.
  induction l as [| x l IH]; simpl; [reflexivity |].
  rewrite sorted_insert_In, IH. intuition.
Qed.

Lemma sorted_insert_ascending x l :
  StronglySorted Z.lt l -> ~ In x l -> StronglySorted Z.lt (sorted_insert x l).
Proof.
  induction l as [| z l IH]; simpl; intros Hs Hx.
  - constructor; constructor.
  - inversion Hs as [| ? ? Hs' Hall]; subst.
    destruct (Z.leb_spec x z) as [Hle | Hgt].
    + assert (Hlt : x < z) by (assert (z <> x) by tauto; lia).
      constructor; [exact Hs |].
      constructor; [exact Hlt |].
      eapply Forall_impl; [| exact Hall]. simpl. intros; lia.
    + constructor; [apply IH; tauto |].
      apply Forall_forall. intros y Hy. apply sorted_insert_In in Hy.
      destruct Hy as [-> | Hy]; [lia |].
      rewrite Forall_forall in Hall. apply Hall, Hy.
Qed.

Lemma sorted_ascending l : NoDup l -> StronglySorted Z.lt (sorted l).
Proof.
  induction 1 as [| x l Hx Hnd IH]; simpl; [constructor |].
  apply sorted_insert_ascending; [exact IH |].
  rewrite sorted_In. exact Hx.
Qed.

(** [sorted(set(...))] lists every candidate once, in ascending order. *)
Lemma sorted_set_ascending l : StronglySorted Z.lt (sorted (py_set l)).
Proof.
  apply sorted_ascending, NoDup_nodup.
Qed.

Lemma sorted_set_In l y : In y (sorted (py_set l)) <-> In y l.
Proof.
  unfold py_set. rewrite sorted_In. apply nodup_In.
Qed.

End Sorted.

Section Acceptance.

Variables a N : Z.

Lemma accept_candidate_Ret l r :
  accept_candidate a N l = Ret r ->
  N <> 0 /\ In r l /\ valid_period a N r.
Proof.
  induction l as [| c l IH]; simpl; [discriminate |].
  unfold py_mod. destruct (Z.eqb_spec N 0) as [H0 | H0]; [discriminate |].
  simpl. destruct (Z.eqb_spec ((a ^ c) mod N) 1) as [Hv | Hv].
  - intros Heq. injection Heq as <-. unfold valid_period. tauto.
  - intros Heq. destruct (IH Heq) as (_ & Hin & Hvr). tauto.
Qed.

(** In an ascending list the accepted candidate is the least valid one. *)
Lemma accept_candidate_least l r :
  StronglySorted Z.lt l ->
  accept_candidate a N l = Ret r ->
  forall c, In c l -> valid_period a N c -> r <= c.
Proof.
  induction l as [| x l IH]; simpl; [discriminate |].
  intros Hs. inversion Hs as [| ? ? Hs' Hall]; subst.
  unfold py_mod. destruct (Z.eqb_spec N 0) as [H0 | H0]; [discriminate |].
  simpl. destruct (Z.eqb_spec ((a ^ x) mod N) 1) as [Hv | Hv].
  - intros Heq c [-> | Hc] _; injection Heq as <-; [lia |].
    rewrite Forall_forall in Hall. specialize (Hall c Hc). lia.
  - intros Heq c [-> | Hc] Hvc; [contradiction |].
    apply IH; assumption.
Qed.

Lemma accept_candidate_resample l :
  N <> 0 ->
  (accept_candidate a N l = Raise PleaseSampleAgain <->
   forall c, In c l -> ~ valid_period a N c).
Proof.
  intros H0. induction l as [| x l IH]; simpl.
  - split; [intros _ c [] | reflexivity].
  - unfold py_mod. destruct (Z.eqb_spec N 0) as [| _]; [contradiction |].
    simpl. destruct (Z.eqb_spec ((a ^ x) mod N) 1) as [Hv | Hv].
    + split; [discriminate |]. intros H. exfalso. apply (H x); [tauto | exact Hv].
    + rewrite IH. split.
      * intros H c [-> | Hc]; [exact Hv | apply H, Hc].
      * intros H c Hc. apply H. tauto.
Qed.

(** The scan raises nothing but "Please sample again" for a non-zero
    modulus, and never runs out of fuel. *)
Lemma accept_candidate_cases l :
  N <> 0 ->
  (exists r, accept_candidate a N l = Ret r) \/
  accept_candidate a N l = Raise PleaseSampleAgain.
Proof.
  intros H0. induction l as [| x l IH]; simpl; [right; reflexivity |].
  unfold py_mod. destruct (Z.eqb_spec N 0) as [| _]; [contradiction |].
  simpl. destruct ((a ^ x) mod N =? 1); [left; eexists; reflexivity | exact IH].
Qed.

Lemma accept_candidate_accepted r_candidates r :
  accept_candidate a N (sorted (py_set r_candidates)) = Ret r <->
  N <> 0 /\ accepted_period a N r_candidates r.
Proof.
  split.
  - intros Heq. destruct (accept_candidate_Ret _ _ Heq) as (H0 & Hin & Hv).
    split; [exact H0 |]. split; [apply sorted_set_In, Hin |].
    split; [exact Hv |]. intros c Hc Hvc.
    apply (accept_candidate_least _ _ (sorted_set_ascending _) Heq);
      [apply sorted_set_In, Hc | exact Hvc].
  - intros (H0 & Hin & Hv & Hmin).
    destruct (accept_candidate_cases (sorted (py_set r_candidates)) H0)
      as [(r' & Hr') | Hnone].
    + destruct (accept_candidate_Ret _ _ Hr') as (_ & Hin' & Hv').
      pose proof (accept_candidate_least _ _ (sorted_set_ascending _) Hr'
                    r (proj2 (sorted_set_In _ _) Hin) Hv) as Hle.
      pose proof (Hmin r' (proj1 (sorted_set_In _ _) Hin') Hv') as Hge.
      rewrite Hr'. f_equal. lia.
    + exfalso. apply (proj1 (accept_candidate_resample _ H0) Hnone r);
        [apply sorted_set_In, Hin | exact Hv].
Qed.

Lemma valid_period_modulus r : N <> 0 -> valid_period a N r -> 1 < N.
Proof.
  unfold valid_period. intros H0 Hv.
  destruct (Z_lt_le_dec N 0) as [Hneg | Hpos].
  - pose proof (Z.mod_neg_bound (a ^ r) N Hneg). lia.
  - pose proof (Z.mod_pos_bound (a ^ r) N ltac:(lia)). lia.
Qed.

(** A gcd with [N > 1] is a positive divisor of [N]. *)
Lemma recovered_pair x :
  1 < N ->
  let p := Z.gcd x N in
  p <= N /\ p * (N / p) = N /\ 0 < p.
Proof.
  intros HN p.
  pose proof (Z.gcd_nonneg x N) as Hnn.
  pose proof (Z.gcd_divide_r x N) as Hdiv. fold p in Hnn, Hdiv.
  assert (Hp0 : p <> 0) by (intros E; rewrite E in Hdiv; destruct Hdiv; lia).
  split; [apply Z.divide_pos_le; [lia | exact Hdiv] |].
  split; [| lia].
  destruct Hdiv as [c Hc]. rewrite Hc at 1. rewrite Z.div_mul by exact Hp0. lia.
Qed.

End Acceptance.

(** ** Doubles and [int64] in the factor recovery *)

Section DoublePrecision.

Lemma round_half_even_exact n d : 0 < d -> (d | n) -> round_half_even n d = n / d.
Proof.
  intros Hd Hdiv. unfold round_half_even.
  apply Z.mod_divide in Hdiv; [| lia]. rewrite Hdiv.
  destruct (Z.ltb_spec (2 * 0) d); [reflexivity | lia].
Qed.

(** A quotient that is an integer below [2^53] is a double, and [int] of the
    double division gives it back. *)
Lemma double_trunc_exact A B :
  0 < B -> 0 < A -> (B | A) -> A / B < 2 ^ 53 -> double_trunc A B = A / B.
Proof.
  intros HB HA [q Hq] Hlt. subst A.
  rewrite Z.div_mul in Hlt |- * by lia.
  assert (Hq : 0 < q) by nia.
  pose proof (Z.log2_nonneg q) as HL0.
  assert (HL : Z.log2 q < 53) by (apply Z.log2_lt_pow2; assumption).
  assert (He : double_exponent (q * B) B = Z.log2 q - 52).
  { unfold double_exponent, floor_log2_ratio.
    destruct (Z.leb_spec B (q * B)); [| nia].
    rewrite Z.div_mul by lia. lia. }
  unfold double_trunc, double_mantissa. rewrite He.
  destruct (Z.leb_spec 0 (Z.log2 q - 52)) as [H0 | H0].
  - replace (Z.log2 q - 52) with 0 by lia.
    rewrite Z.pow_0_r, !Z.mul_1_r.
    rewrite round_half_even_exact by (try lia; exists q; reflexivity).
    apply Z.div_mul. lia.
  - set (s := - (Z.log2 q - 52)).
    assert (Hpow : 0 < 2 ^ s) by (apply Z.pow_pos_nonneg; unfold s; lia).
    rewrite round_half_even_exact by (try lia; exists (q * 2 ^ s); ring).
    replace (q * B * 2 ^ s) with (q * 2 ^ s * B) by ring.
    rewrite Z.div_mul by lia. apply Z.div_mul. lia.
Qed.

Lemma float64_of_int_exact n : 0 <= n < 2 ^ 53 -> float64_of_int n = n.
Proof.
  intros Hn. unfold float64_of_int.
  destruct (Z.eq_dec n 0) as [-> | H0]; [reflexivity |].
  rewrite Z.sgn_pos, Z.abs_eq, Z.mul_1_l by lia.
  rewrite double_trunc_exact; rewrite ?Z.div_1_r; try lia.
  apply Z.divide_1_l.
Qed.

Lemma int_true_div_exact N p :
  0 < p -> (p | N) -> 0 < N < 2 ^ 53 -> int_true_div N p = Ret (N / p).
Proof.
  intros Hp Hdiv HN.
  assert (HpN : p <= N) by (apply Z.divide_pos_le; [lia | exact Hdiv]).
  unfold int_true_div, np_int64, int64_min, int64_max.
  destruct (Z.leb_spec (- 2 ^ 63) N); [| lia].
  destruct (Z.leb_spec N (2 ^ 63 - 1)); [| lia]. cbn [andb bind].
  destruct (Z.eqb_spec p 0); [lia |].
  rewrite !Z.sgn_pos, !float64_of_int_exact, !Z.abs_eq by lia.
  rewrite double_trunc_exact; try lia; [f_equal; lia | exact Hdiv |].
  apply Z.le_lt_trans with N; [| lia].
  apply Z.div_le_upper_bound; nia.
Qed.

Lemma np_int64_spec x :
  (int64 x /\ np_int64 x = Ret x) \/ (~ int64 x /\ np_int64 x = Raise OverflowError).
Proof.
  unfold np_int64, int64.
  destruct (Z.leb_spec int64_min x); destruct (Z.leb_spec x int64_max); simpl;
    solve [left; split; [lia | reflexivity] | right; split; [lia | reflexivity]].
Qed.

Lemma wrap_int64_id x : int64 x -> wrap_int64 x = x.
Proof.
  unfold int64, int64_min, int64_max, wrap_int64. intros Hx.
  rewrite Z.mod_small; lia.
Qed.

(** [np.gcd(x, N)] for a positive [N]: the gcd, unless an argument does not
    fit [int64]. *)
Lemma np_gcd_spec x N :
  0 < N ->
  (int64 x /\ int64 N /\ np_gcd x N = Ret (Z.gcd x N)) \/
  ((~ int64 x \/ ~ int64 N) /\ np_gcd x N = Raise OverflowError).
Proof.
  intros HN. unfold np_gcd.
  destruct (np_int64_spec x) as [[Hx ->] | [Hx ->]]; [| right; split; [tauto | reflexivity]].
  destruct (np_int64_spec N) as [[Hn ->] | [Hn ->]]; [| right; split; [tauto | reflexivity]].
  left. split; [exact Hx |]. split; [exact Hn |]. cbn [bind]. f_equal.
  apply wrap_int64_id.
  pose proof (Z.gcd_nonneg x N).
  pose proof (Z.divide_pos_le _ _ HN (Z.gcd_divide_r x N)).
  unfold int64, int64_min, int64_max in *. lia.
Qed.

Lemma int_true_div_Ret N p :
  int64 N -> p <> 0 -> exists q, int_true_div N p = Ret q.
Proof.
  intros HN Hp. unfold int_true_div.
  destruct (np_int64_spec N) as [[_ ->] | [Hn _]]; [| contradiction].
  cbn [bind]. destruct (Z.eqb_spec p 0); [contradiction |]. eexists. reflexivity.
Qed.

(** The last lines of [quantum_shor_qiskit] for [N > 1]: [OverflowError]
    when [a^(r/2) + 1] or [N] does not fit [int64], and otherwise the pair of
    [p = gcd(a^(r/2) + 1, N)] and [q = int(N/p)], smaller element first. *)
Lemma factor_recovery_spec a N r :
  1 < N ->
  ((~ int64 (a ^ (r / 2) + 1) \/ ~ int64 N) /\
   factor_recovery a N r = Raise OverflowError) \/
  (int64 (a ^ (r / 2) + 1) /\ int64 N /\
   exists q0, int_true_div N (Z.gcd (a ^ (r / 2) + 1) N) = Ret q0 /\
              factor_recovery a N r =
              Ret (Z.min (Z.gcd (a ^ (r / 2) + 1) N) q0,
                   Z.max (Z.gcd (a ^ (r / 2) + 1) N) q0)).
Proof.
  intros HN. unfold factor_recovery.
  destruct (np_gcd_spec (a ^ (r / 2) + 1) N ltac:(lia)) as [(Hx & Hn & ->) | (Hbad & ->)];
    [| left; split; [exact Hbad | reflexivity]].
  right. split; [exact Hx |]. split; [exact Hn |].
  destruct (recovered_pair N (a ^ (r / 2) + 1) HN) as (_ & _ & Hpos). cbv zeta in Hpos.
  destruct (int_true_div_Ret N (Z.gcd (a ^ (r / 2) + 1) N) Hn ltac:(lia)) as (q0 & Hq0).
  exists q0. split; [exact Hq0 |]. cbn [bind]. rewrite Hq0. cbn [bind].
  destruct (Z.gtb_spec (Z.gcd (a ^ (r / 2) + 1) N) q0).
  - rewrite Z.min_r, Z.max_l by lia. reflexivity.
  - rewrite Z.min_l, Z.max_r by lia. reflexivity.
Qed.

(** Below [2^53] the quotient is the exact cofactor. *)
Lemma factor_recovery_exact a N r :
  1 < N < 2 ^ 53 -> int64 (a ^ (r / 2) + 1) ->
  int_true_div N (Z.gcd (a ^ (r / 2) + 1) N) = Ret (N / Z.gcd (a ^ (r / 2) + 1) N) /\
  factor_recovery a N r =
  Ret (Z.min (Z.gcd (a ^ (r / 2) + 1) N) (N / Z.gcd (a ^ (r / 2) + 1) N),
       Z.max (Z.gcd (a ^ (r / 2) + 1) N) (N / Z.gcd (a ^ (r / 2) + 1) N)).
Proof.
  intros HN Hx.
  destruct (recovered_pair N (a ^ (r / 2) + 1) ltac:(lia)) as (_ & _ & Hpos).
  cbv zeta in Hpos.
  assert (Hq : int_true_div N (Z.gcd (a ^ (r / 2) + 1) N)
               = Ret (N / Z.gcd (a ^ (r / 2) + 1) N))
    by (apply int_true_div_exact; [exact Hpos | apply Z.gcd_divide_r | lia]).
  split; [exact Hq |].
  destruct (factor_recovery_spec a N r ltac:(lia)) as [([Hbad | Hbad] & _) | (_ & _ & q0 & Hq0 & ->)].
  - contradiction.
  - exfalso. apply Hbad. unfold int64, int64_min, int64_max. lia.
  - rewrite Hq in Hq0. injection Hq0 as <-. reflexivity.
Qed.

End DoublePrecision.

(** What [quantum_shor_qiskit] does after the scan. *)
Lemma quantum_shor_qiskit_candidates_unfold a N r_candidates :
  quantum_shor_qiskit_candidates a N r_candidates =
  match accept_candidate a N (sorted (py_set r_candidates)) with
  | Ret r =>
      if r mod 2 =? 0 then factor_recovery a N r
      else Raise PleaseChooseAnotherA
  | Raise e => Raise e
  | Diverge => Diverge
  end.
Proof.
  unfold quantum_shor_qiskit_candidates, factor_recovery.
  destruct (accept_candidate a N (sorted (py_set r_candidates))) as [r | e |];
    simpl; try reflexivity.
  destruct (r mod 2 =? 0); reflexivity.
Qed.


(** A returned pair comes from an accepted even period whose recovery stayed
    within [int64]; its elements are [p = gcd(a^(r/2) + 1, N)] and
    [q = int(N/p)], and below [2^53] they multiply back to [N]. *)
Lemma quantum_shor_qiskit_candidates_Ret a N r_candidates p q :
  quantum_shor_qiskit_candidates a N r_candidates = Ret (p, q) ->
  p <= q /\
  exists r, accepted_period a N r_candidates r /\ r mod 2 = 0 /\
            int64 (a ^ (r / 2) + 1) /\ int64 N /\ 1 < N /\
            exists q0,
              int_true_div N (Z.gcd (a ^ (r / 2) + 1) N) = Ret q0 /\
              p = Z.min (Z.gcd (a ^ (r / 2) + 1) N) q0 /\
              q = Z.max (Z.gcd (a ^ (r / 2) + 1) N) q0 /\
              (N < 2 ^ 53 -> q0 = N / Z.gcd (a ^ (r / 2) + 1) N /\ p * q = N).
Proof.
  rewrite quantum_shor_qiskit_candidates_unfold.
  destruct (accept_candidate a N (sorted (py_set r_candidates))) as [r | e |] eqn:Hacc;
    try discriminate.
  destruct (Z.eqb_spec (r mod 2) 0) as [Hev | Hodd]; [| discriminate].
  apply accept_candidate_accepted in Hacc. destruct Hacc as (H0 & Hacc).
  pose proof (valid_period_modulus a N r H0 (proj1 (proj2 Hacc))) as HN.
  destruct (factor_recovery_spec a N r HN) as [(_ & ->) | (Hx & Hn & q0 & Hq0 & ->)];
    [discriminate |].
  intros Heq. injection Heq as <- <-.
  split; [lia |]. exists r. split; [exact Hacc |]. split; [exact Hev |].
  split; [exact Hx |]. split; [exact Hn |]. split; [exact HN |].
  exists q0. split; [exact Hq0 |]. split; [reflexivity |]. split; [reflexivity |].
  intros Hsmall.
  destruct (factor_recovery_exact a N r ltac:(lia) Hx) as (Hq & _).
  rewrite Hq in Hq0. injection Hq0 as <-. split; [reflexivity |].
  destruct (recovered_pair N (a ^ (r / 2) + 1) HN) as (_ & Hprod & _). cbv zeta in Hprod.
  set (p0 := Z.gcd (a ^ (r / 2) + 1) N) in *.
  set (q0 := N / p0) in *.
  destruct (Z.le_ge_cases p0 q0).
  - rewrite Z.min_l, Z.max_r by lia. exact Hprod.
  - rewrite Z.min_r, Z.max_l by lia. lia.
Qed.





(** C3, as the code has it: every pair returned by [quantum_shor_qiskit] has
    its smaller element first; [classical_Shor] returns the divisor it found
    followed by the cofactor [N // p], in that order. *)
Theorem factor_pair_order :
  (forall a N r_candidates p q,
      quantum_shor_qiskit_candidates a N r_candidates = Ret (p, q) -> p <= q) /\
  (forall a N meas_res p q,
      quantum_shor_qiskit a N meas_res = Ret (p, q) -> p <= q) /\
  (forall fuel N draws p q,
      classical_Shor fuel N draws = Ret (p, q) -> q = N / p).
Proof.
  split; [| split].
  - intros a N l p q Heq. apply quantum_shor_qiskit_candidates_Ret in Heq. tauto.
  - intros a N meas p q Heq. unfold quantum_shor_qiskit in Heq.
    apply bind_Ret_inv in Heq. destruct Heq as (l & _ & Heq).
    apply quantum_shor_qiskit_candidates_Ret in Heq. tauto.
  - intros fuel N draws p q. unfold classical_Shor.
    destruct (N mod 2 =? 0).
    + intros Heq. injection Heq as <- <-. reflexivity.
    + intros Heq. apply bind_Ret_inv in Heq. destruct Heq as (b & _ & Heq).
      destruct b.
      * injection Heq as <- <-. symmetry. apply Z.div_1_r.
      * eapply classical_Shor_loop_cofactor; eassumption.
Qed.

Lemma factor_pair_order_witness : 3 <= 5 /\ 3 <= 5 /\ 3 = 15 / 5.
Proof.
  destruct factor_pair_order as (Hcands & Hfull & Hclassical).
  split; [| split].
  - apply (Hcands 2 15 [8; 4; 1; 4] 3 5). reflexivity.
  - apply (Hfull 2 15 ["010000000"%string; "110000000"%string] 3 5). reflexivity.
  - apply (Hclassical 20%nat 15 [5] 5 3). reflexivity.
Defined.

(** C3 as stated fails for [classical_Shor]: with the draw [a = 5] it
    returns [(5, 3)] for [N = 15]. *)
Lemma factor_pair_order_counterexample :
  ~ ((forall fuel N draws p q,
         classical_Shor fuel N draws = Ret (p, q) -> p <= q) /\
     (forall a N r_candidates p q,
         quantum_shor_qiskit_candidates a N r_candidates = Ret (p, q) -> p <= q)).
Proof.
  intros [Hclassical _].
  specialize (Hclassical 20%nat 15 [5] 5 3 eq_refl). lia.
Qed.

(** ** Period candidates from continued fractions *)

Section Convergents.

Lemma rational_div_coprime p q :
  0 < q -> Z.gcd p q = 1 -> rational_div p q = mk_rational p q.
Proof.
  intros Hq Hg. unfold rational_div. rewrite Hg.
  rewrite Z.sgn_pos, Z.abs_eq, !Z.div_1_r by lia.
  f_equal. lia.
Qed.

(** Consecutive convergents have determinant [1] or [-1], so each is in
    lowest terms. *)
Lemma gcd_of_det p q u v :
  p * u - q * v = 1 \/ p * u - q * v = -1 -> Z.gcd p q = 1.
Proof.
  intros Hdet.
  pose proof (Z.gcd_nonneg p q) as Hnn.
  destruct (Z.gcd_divide_l p q) as [x Hx].
  destruct (Z.gcd_divide_r p q) as [y Hy].
  set (g := Z.gcd p q) in *.
  assert (Hdiv : (g | 1)).
  { destruct Hdet as [Hd | Hd].
    - exists (x * u - y * v). rewrite <- Hd. rewrite Hx at 1. rewrite Hy at 1. ring.
    - exists (y * v - x * u).
      replace 1 with (q * v - p * u) by lia. rewrite Hx at 1. rewrite Hy at 1. ring. }
  apply Z.divide_1_r in Hdiv. lia.
Qed.

Lemma StronglySorted_lt_le l : StronglySorted Z.lt l -> StronglySorted Z.le l.
Proof.
  induction 1 as [| x l Hs IH Hall]; constructor; [exact IH |].
  eapply Forall_impl; [| exact Hall]. simpl. intros; lia.
Qed.

(** From a state with a positive last denominator and terms that are all at
    least 1, the model yields exactly the pairs of the recurrence, and
    their denominators increase strictly. *)
Lemma convergents_loop_denominators cf :
  forall p_2 q_2 p_1 q_1,
    0 < q_1 -> 0 <= q_2 ->
    p_1 * q_2 - p_2 * q_1 = 1 \/ p_1 * q_2 - p_2 * q_1 = -1 ->
    Forall (fun a => 1 <= a) cf ->
    map rat_q (continued_fraction_convergents_loop p_2 q_2 p_1 q_1 cf) =
    map snd (convergent_pairs p_2 q_2 p_1 q_1 cf) /\
    StronglySorted Z.lt (map snd (convergent_pairs p_2 q_2 p_1 q_1 cf)) /\
    Forall (fun x => q_1 <= x) (map snd (convergent_pairs p_2 q_2 p_1 q_1 cf)) /\
    (0 < q_2 ->
     Forall (fun x => q_1 < x) (map snd (convergent_pairs p_2 q_2 p_1 q_1 cf))).
Proof.
  induction cf as [| a cf IH]; intros p_2 q_2 p_1 q_1 Hq1 Hq2 Hdet Hterms.
  - simpl. repeat split; constructor.
  - inversion Hterms as [| ? ? Ha Hrest]; subst.
    set (p := a * p_1 + p_2). set (q := a * q_1 + q_2).
    assert (Hq : q_1 <= q) by (unfold q; nia).
    assert (Hdet' : p * q_1 - p_1 * q = 1 \/ p * q_1 - p_1 * q = -1)
      by (unfold p, q; destruct Hdet; [right | left]; lia).
    assert (Hg : Z.gcd p q = 1) by (apply (gcd_of_det p q q_1 p_1); lia).
    destruct (IH p_1 q_1 p q ltac:(lia) ltac:(lia) Hdet' Hrest)
      as (Hmodel & Hsorted & Hle & Hlt).
    specialize (Hlt Hq1).
    cbn [continued_fraction_convergents_loop convergent_pairs map snd].
    fold p q. rewrite rational_div_coprime by (assumption || lia).
    cbn [rat_q]. rewrite Hmodel.
    split; [reflexivity |]. split; [constructor; assumption |].
    split.
    + constructor; [exact Hq |].
      eapply Forall_impl; [| exact Hle]. simpl. intros; lia.
    + intros Hq2'. constructor; [unfold q; nia |].
      eapply Forall_impl; [| exact Hle]. simpl. intros. unfold q in *. nia.
Qed.

(** The expansion of [n/d] for a positive [d]: the loop returns, its first
    term is the integer part and the others are at least 1. *)
Lemma continued_fraction_iterator_loop_terms fuel :
  forall n d, 0 < d -> d <= Z.of_nat fuel ->
  exists rest,
    continued_fraction_iterator_loop fuel n d = Ret (n / d :: rest) /\
    Forall (fun a => 1 <= a) rest.
Proof.
  induction fuel as [| fuel IH]; intros n d Hd Hfuel; [lia |].
  simpl.
  pose proof (Z.div_mod n d ltac:(lia)) as Hdm.
  pose proof (Z.mod_pos_bound n d Hd) as Hb.
  destruct (Z.eqb_spec (n - n / d * d) 0) as [Hz | Hnz].
  - exists []. split; [reflexivity | constructor].
  - destruct (IH d (n - n / d * d) ltac:(lia) ltac:(lia)) as (rest & Hrest & Hall).
    rewrite Hrest. simpl. eexists. split; [reflexivity |].
    constructor; [| exact Hall].
    apply Z.div_le_lower_bound; lia.
Qed.

(** The last convergent is the expanded fraction itself. *)
Lemma continued_fraction_iterator_loop_value fuel :
  forall n d cf p_2 q_2 p_1 q_1,
    continued_fraction_iterator_loop fuel n d = Ret cf ->
    fst (last_convergent p_2 q_2 p_1 q_1 cf) * (q_1 * n + q_2 * d) =
    snd (last_convergent p_2 q_2 p_1 q_1 cf) * (p_1 * n + p_2 * d).
Proof.
  induction fuel as [| fuel IH]; intros n d cf p_2 q_2 p_1 q_1; [discriminate |].
  simpl. destruct (Z.eqb_spec (n - n / d * d) 0) as [Hz | Hnz].
  - intros Heq. injection Heq as <-. simpl.
    replace n with (n / d * d) at 2 4 by lia. ring.
  - intros Heq. apply bind_Ret_inv in Heq. destruct Heq as (rest & Hrest & Heq).
    injection Heq as <-. simpl.
    pose proof (IH _ _ _ p_1 q_1 (n / d * p_1 + p_2) (n / d * q_1 + q_2) Hrest) as H.
    replace (q_1 * n + q_2 * d)
      with ((n / d * q_1 + q_2) * d + q_1 * (n - n / d * d)) by ring.
    replace (p_1 * n + p_2 * d)
      with ((n / d * p_1 + p_2) * d + p_1 * (n - n / d * d)) by ring.
    exact H.
Qed.

Lemma last_cons_default {A : Type} (l : list A) :
  forall x d, last (x :: l) d = last l x.
Proof.
  induction l as [| y l IH]; intros x d; [reflexivity |].
  change (last (x :: y :: l) d) with (last (y :: l) d).
  rewrite !IH. reflexivity.
Qed.

Lemma last_convergent_pairs cf :
  forall p_2 q_2 p_1 q_1,
    last (convergent_pairs p_2 q_2 p_1 q_1 cf) (p_1, q_1) =
    last_convergent p_2 q_2 p_1 q_1 cf.
Proof.
  induction cf as [| a cf IH]; intros p_2 q_2 p_1 q_1; [reflexivity |].
  cbn [last_convergent convergent_pairs].
  rewrite last_cons_default. apply IH.
Qed.

End Convergents.

Lemma get_r_candidates_fraction (n d : Z) :
  0 < d ->
  exists rest l,
    continued_fraction_iterator (mk_rational n d) = Ret (n / d :: rest) /\
    Forall (fun a => 1 <= a) rest /\
    map rat_q (continued_fraction_convergents (n / d :: rest)) = l /\
    l = map snd (convergent_pairs 0 1 1 0 (n / d :: rest)) /\
    fst (last (convergent_pairs 0 1 1 0 (n / d :: rest)) (1, 0)) * d =
    snd (last (convergent_pairs 0 1 1 0 (n / d :: rest)) (1, 0)) * n /\
    Forall (fun r => 0 < r) l /\
    StronglySorted Z.le l /\ StronglySorted Z.lt (tl l) /\ hd 0 l = 1.
Proof.
  intros Hd. unfold continued_fraction_iterator. cbn [rat_p rat_q].
  destruct (continued_fraction_iterator_loop_terms (Z.to_nat d) n d Hd ltac:(lia))
    as (rest & Hcf & Hterms).
  set (a0 := n / d) in *.
  exists rest. eexists. split; [exact Hcf |]. split; [exact Hterms |].
  split; [reflexivity |].
  pose proof (continued_fraction_iterator_loop_value _ _ _ _ 0 1 1 0 Hcf) as Hval.
  rewrite <- last_convergent_pairs in Hval.
  unfold continued_fraction_convergents.
  cbn [continued_fraction_convergents_loop convergent_pairs map snd].
  set (p0 := a0 * 1 + 0) in *. set (q0 := a0 * 0 + 1) in *.
  assert (Hq0 : q0 = 1) by (unfold q0; lia).
  destruct (convergents_loop_denominators rest 1 0 p0 q0)
    as (Hmodel & Hsorted & Hle & _); try lia; [exact Hterms |].
  rewrite rational_div_coprime
    by (try lia; apply (gcd_of_det p0 q0 0 (-1)); lia).
  cbn [rat_q]. rewrite Hmodel.
  split; [reflexivity |].
  split; [cbn [convergent_pairs] in Hval; fold p0 q0 in Hval; lia |].
  split.
  { constructor; [lia |]. eapply Forall_impl; [| exact Hle]. simpl. intros; lia. }
  split.
  { constructor; [apply StronglySorted_lt_le, Hsorted | exact Hle]. }
  split; [exact Hsorted | exact Hq0].
Qed.

(** C8: on the phase 0 [get_r_candidates] returns, and its result is the
    one-element sequence [[1]]: not empty, and containing the candidate 1. *)
Theorem get_r_candidates_phase_zero (approx : Q) :
  (approx == 0)%Q ->
  exists l, get_r_candidates approx = Ret l /\ l <> [] /\ In 1 l /\ l = [1].
Proof.
  intros Hz. exists [1].
  unfold get_r_candidates, Rational.
  rewrite (Qred_complete approx 0 Hz).
  split; [reflexivity |]. split; [discriminate |]. split; [left |]; reflexivity.
Qed.

Lemma get_r_candidates_phase_zero_witness :
  exists l, get_r_candidates (0 # 512) = Ret l /\ l <> [] /\ In 1 l /\ l = [1].
Proof.
  apply (get_r_candidates_phase_zero (0 # 512)). reflexivity.
Defined.

(** C9, as the code has it: for a phase in [0, 1) [get_r_candidates] returns
    the denominators of the successive convergents of the phase: positive
    integers, starting at 1, in non-decreasing order and strictly increasing
    from the second one on; the last convergent is the phase itself. *)
Theorem get_r_candidates_denominators (approx : Q) :
  (0 <= approx)%Q -> (approx < 1)%Q ->
  exists rest l,
    continued_fraction_iterator (Rational approx) = Ret (0 :: rest) /\
    Forall (fun a => 1 <= a) rest /\
    get_r_candidates approx = Ret l /\
    l = map snd (convergent_pairs 0 1 1 0 (0 :: rest)) /\
    fst (last (convergent_pairs 0 1 1 0 (0 :: rest)) (1, 0)) * Zpos (Qden approx) =
    Qnum approx * snd (last (convergent_pairs 0 1 1 0 (0 :: rest)) (1, 0)) /\
    Forall (fun r => 0 < r) l /\
    StronglySorted Z.le l /\ StronglySorted Z.lt (tl l) /\ hd 0 l = 1.
Proof.
  intros H0 H1.
  pose proof (Qred_correct approx) as Hred.
  rewrite <- Hred in H0, H1.
  unfold Qeq in Hred. unfold Qle in H0. unfold Qlt in H1. simpl in H0, H1.
  unfold get_r_candidates, Rational. cbv zeta.
  set (n := Qnum (Qred approx)) in *. set (d := Zpos (Qden (Qred approx))) in *.
  assert (Hd : 0 < d) by (unfold d; lia).
  destruct (get_r_candidates_fraction n d Hd)
    as (rest & l & Hcf & Hterms & Hl & Hpairs & Hval & Hpos & Hle & Hlt & Hhd).
  assert (Ha0 : n / d = 0) by (apply Z.div_small; lia).
  rewrite Ha0 in *.
  exists rest, l. rewrite Hcf. cbn [bind]. rewrite Hl.
  split; [reflexivity |]. split; [exact Hterms |].
  split; [reflexivity |]. split; [exact Hpairs |].
  split; [| tauto].
  set (P := fst (last (convergent_pairs 0 1 1 0 (0 :: rest)) (1, 0))) in *.
  set (Qd := snd (last (convergent_pairs 0 1 1 0 (0 :: rest)) (1, 0))) in *.
  apply (Z.mul_reg_r _ _ d); [lia |].
  transitivity (Qd * n * Zpos (Qden approx)); [rewrite <- Hval; ring |].
  rewrite <- Z.mul_assoc, Hred. ring.
Qed.

Lemma get_r_candidates_denominators_witness :
  exists rest l,
    continued_fraction_iterator (Rational (3 # 4)) = Ret (0 :: rest) /\
    Forall (fun a => 1 <= a) rest /\
    get_r_candidates (3 # 4) = Ret l /\
    l = map snd (convergent_pairs 0 1 1 0 (0 :: rest)) /\
    fst (last (convergent_pairs 0 1 1 0 (0 :: rest)) (1, 0)) * Zpos (Qden (3 # 4)) =
    Qnum (3 # 4) * snd (last (convergent_pairs 0 1 1 0 (0 :: rest)) (1, 0)) /\
    Forall (fun r => 0 < r) l /\
    StronglySorted Z.le l /\ StronglySorted Z.lt (tl l) /\ hd 0 l = 1.
Proof.
  apply (get_r_candidates_denominators (3 # 4)).
  - unfold Qle. simpl. lia.
  - unfold Qlt. simpl. lia.
Defined.

(** C9 as stated fails: the phase 3/4 has the convergents 0/1, 1/1 and 3/4,
    so the candidates are [[1; 1; 4]], which do not increase strictly. *)
Lemma get_r_candidates_denominators_counterexample :
  ~ (forall approx : Q, (0 <= approx)%Q -> (approx < 1)%Q ->
       exists l, get_r_candidates approx = Ret l /\
                 Forall (fun r => 0 < r) l /\ StronglySorted Z.lt l).
Proof.
  intros H.
  destruct (H (3 # 4)) as (l & Hl & _ & Hs).
  - unfold Qle. simpl. lia.
  - unfold Qlt. simpl. lia.
  - vm_compute in Hl. injection Hl as <-.
    inversion Hs as [| ? ? _ Hall]; subst.
    inversion Hall as [| ? ? Hlt _]; subst. lia.
Qed.


(** * Further properties of the code *)

(** ** Order finding *)

Lemma find_period_loop_sound g N fuel :
  forall e r, find_period_loop fuel g N e = Ret r ->
  e <= r < e + Z.of_nat fuel /\ pow_mod g r N = 1 /\
  forall e', e <= e' < r -> pow_mod g e' N <> 1.
Proof.
  induction fuel as [| fuel IH]; intros e r; [discriminate |].
  simpl. destruct (Z.eqb_spec (pow_mod g e N) 1) as [He | He]; simpl.
  - intros Heq. injection Heq as <-. split; [lia |]. split; [exact He |].
    intros; lia.
  - intros Heq. destruct (IH _ _ Heq) as (Hr & Hv & Hmin).
    split; [lia |]. split; [exact Hv |].
    intros e' He'. destruct (Z.eq_dec e' e) as [-> | Hne]; [exact He |].
    apply Hmin. lia.
Qed.

Lemma find_period_loop_outcome g N fuel :
  forall e, (exists r, find_period_loop fuel g N e = Ret r) \/
            find_period_loop fuel g N e = Diverge.
Proof.
  induction fuel as [| fuel IH]; intros e; [right; reflexivity |].
  simpl. destruct (pow_mod g e N =? 1); simpl; [left; eexists; reflexivity | apply IH].
Qed.

Lemma find_period_classical_is_order g N fuel r :
  find_period_classical fuel g N = Ret r -> is_order g N r.
Proof.
  intros Heq. apply find_period_loop_sound in Heq.
  destruct Heq as (Hr & Hv & Hmin).
  split; [lia |]. split; [exact Hv |]. intros e He. apply Hmin. lia.
Qed.

Lemma is_order_find_period_classical g N fuel r :
  is_order g N r -> (Z.to_nat r <= fuel)%nat ->
  find_period_classical fuel g N = Ret r.
Proof.
  intros (Hr & Hv & Hmin) Hfuel. apply find_period_loop_found.
  - lia.
  - lia.
  - exact Hv.
  - intros e He. apply Hmin. lia.
Qed.

(** A period of [g] modulo [N] makes [g] a unit. *)
Lemma period_coprime g N e : 0 < e -> (g ^ e) mod N = 1 -> N <> 0 -> Z.gcd g N = 1.
Proof.
  intros He Hv HN.
  apply (gcd_of_det g N (g ^ (e - 1)) ((g ^ e) / N)). left.
  pose proof (Z.div_mod (g ^ e) N HN) as Hdm.
  replace (g * g ^ (e - 1)) with (g ^ e).
  - lia.
  - replace e with (Z.succ (e - 1)) at 1 by lia. apply Z.pow_succ_r. lia.
Qed.

Lemma find_period_classical_Ret fuel g N e :
  N <> 0 ->
  find_period_classical fuel g N = Ret e ->
  is_order g N e /\ e <= Z.of_nat fuel /\ Z.gcd g N = 1 /\ 1 < N.
Proof.
  intros HN Heq.
  pose proof (find_period_classical_is_order _ _ _ _ Heq) as Hord.
  apply find_period_loop_sound in Heq. destruct Heq as (Hr & Hv & _).
  split; [exact Hord |]. split; [lia |].
  split; [apply (period_coprime g N e); [lia | exact Hv | exact HN] |].
  apply (valid_period_modulus g N e HN Hv).
Qed.

(** X1: whatever [find_period_classical] returns is the multiplicative
    order: a positive exponent [e] with [g^e mod N = 1], the least one; the
    loop condition was evaluated [e] times, and [g] is coprime to [N]. *)
Theorem find_period_classical_sound (fuel : nat) (g N e : Z) :
  N <> 0 ->
  find_period_classical fuel g N = Ret e ->
  is_order g N e /\ e <= Z.of_nat fuel /\ Z.gcd g N = 1 /\ 1 < N.
Proof.
  exact (find_period_classical_Ret fuel g N e).
Qed.

Lemma find_period_classical_sound_witness :
  is_order 7 15 4 /\ 4 <= Z.of_nat 10 /\ Z.gcd 7 15 = 1 /\ 1 < 15.
Proof.
  apply (find_period_classical_sound 10 7 15 4); [lia | reflexivity].
Defined.

(** X2: for [N > 1] the loop of [find_period_classical] ends exactly for the
    bases coprime to [N]; for every other base it never returns. *)
Theorem find_period_classical_terminates_iff (g N : Z) :
  1 < N ->
  ((exists fuel e, find_period_classical fuel g N = Ret e) <-> Z.gcd g N = 1) /\
  (Z.gcd g N <> 1 -> forall fuel, find_period_classical fuel g N = Diverge).
Proof.
  intros HN.
  assert (Hret : forall fuel e, find_period_classical fuel g N = Ret e -> Z.gcd g N = 1).
  { intros fuel e Heq. apply (find_period_classical_Ret fuel g N e); [lia | exact Heq]. }
  split; [split |].
  - intros (fuel & e & Heq). exact (Hret fuel e Heq).
  - intros Hc. destruct (order_exists g N HN Hc) as (e & He & Hv & Hmin).
    exists (Z.to_nat e), e. apply is_order_find_period_classical; [| lia].
    split; [lia |]. split; [exact Hv | exact Hmin].
  - intros Hnc fuel.
    destruct (find_period_loop_outcome g N fuel 1) as [(r & Hr) | Hd]; [| exact Hd].
    exfalso. apply Hnc. exact (Hret fuel r Hr).
Qed.

Lemma find_period_classical_terminates_iff_witness :
  ((exists fuel e, find_period_classical fuel 6 15 = Ret e) <-> Z.gcd 6 15 = 1) /\
  (Z.gcd 6 15 <> 1 -> forall fuel, find_period_classical fuel 6 15 = Diverge).
Proof.
  apply (find_period_classical_terminates_iff 6 15). lia.
Defined.

(** ** The classical driver, draw by draw *)

Lemma classical_Shor_loop_product fuel N :
  forall draws p q,
    classical_Shor_loop fuel N draws = Ret (p, q) ->
    3 <= N /\ p * q = N /\ 0 < p /\ 0 < q.
Proof.
  assert (Hpair : forall x, 3 <= N ->
            Z.gcd x N * (N / Z.gcd x N) = N /\ 0 < Z.gcd x N /\ 0 < N / Z.gcd x N).
  { intros x HN. destruct (recovered_pair N x ltac:(lia)) as (_ & Hprod & Hpos).
    cbv zeta in Hprod, Hpos. split; [exact Hprod |]. split; [exact Hpos | nia]. }
  intros draws. induction draws as [| d draws IH]; intros p q Heq; [discriminate |].
  simpl in Heq. unfold randint in Heq.
  destruct (Z.ltb_spec (N - 1) 2) as [| HN]; [discriminate |]. simpl in Heq.
  destruct (Z.gcd d N =? 1); simpl in Heq.
  - apply bind_Ret_inv in Heq. destruct Heq as (r & _ & Heq).
    destruct (r mod 2 =? 0); [| apply IH; assumption].
    set (x := pow_mod d (r / 2) N) in *.
    destruct (negb (Z.gcd (x - 1) N =? 1) && negb (Z.gcd (x - 1) N =? N)).
    + injection Heq as <- <-. split; [lia | apply Hpair; lia].
    + destruct (negb (Z.gcd (x + 1) N =? 1) && negb (Z.gcd (x + 1) N =? N)).
      * injection Heq as <- <-. split; [lia | apply Hpair; lia].
      * apply IH; assumption.
  - injection Heq as <- <-. split; [lia | apply Hpair; lia].
Qed.

(** X3: every pair that [classical_Shor] returns multiplies back to [N], the
    check of the notebook's test loop over [range(2, N)]; for [N >= 2] both
    elements are positive. *)
Theorem classical_Shor_product (fuel : nat) (N : Z) (draws : list Z) (p q : Z) :
  classical_Shor fuel N draws = Ret (p, q) ->
  p * q = N /\ (2 <= N -> 0 < p /\ 0 < q).
Proof.
  unfold classical_Shor.
  destruct (Z.eqb_spec (N mod 2) 0) as [He | Ho].
  - intros Heq. injection Heq as <- <-. pose proof (even_pair N He). lia.
  - intros Heq. apply bind_Ret_inv in Heq. destruct Heq as (b & _ & Heq).
    destruct b.
    + injection Heq as <- <-. lia.
    + apply classical_Shor_loop_product in Heq. lia.
Qed.

Lemma classical_Shor_product_witness :
  7 * 3 = 21 /\ (2 <= 21 -> 0 < 7 /\ 0 < 3).
Proof.
  apply (classical_Shor_product 21 21 [4; 2] 7 3). reflexivity.
Defined.

Lemma classical_Shor_loop_no_raise fuel N :
  3 <= N -> forall draws e, classical_Shor_loop fuel N draws <> Raise e.
Proof.
  intros HN draws. induction draws as [| d draws IH]; intros e; [discriminate |].
  simpl. unfold randint.
  destruct (Z.ltb_spec (N - 1) 2) as [| _]; [lia |]. simpl.
  destruct (Z.gcd d N =? 1); simpl; [| discriminate].
  unfold find_period_classical.
  destruct (find_period_loop_outcome d N fuel 1) as [(r & ->) | ->]; [| discriminate].
  simpl. destruct (r mod 2 =? 0); [| apply IH].
  destruct (negb (Z.gcd (pow_mod d (r / 2) N - 1) N =? 1) &&
            negb (Z.gcd (pow_mod d (r / 2) N - 1) N =? N)); [discriminate |].
  destruct (negb (Z.gcd (pow_mod d (r / 2) N + 1) N =? 1) &&
            negb (Z.gcd (pow_mod d (r / 2) N + 1) N =? N)); [discriminate | apply IH].
Qed.

(** X4: [classical_Shor] raises nothing for [N >= 2]; the only exception it
    can raise is the [ValueError] of [random.randint(2, N - 1)] on an empty
    range, and every odd [N <= 1] (so [N = 1]) raises it at the first draw. *)
Theorem classical_Shor_errors (fuel : nat) (N : Z) (draws : list Z) :
  (2 <= N -> forall e, classical_Shor fuel N draws <> Raise e) /\
  (forall e, classical_Shor fuel N draws = Raise e -> e = ValueError /\ N <= 1) /\
  (N <= 1 -> N mod 2 <> 0 ->
   forall d, classical_Shor fuel N (d :: draws) = Raise ValueError).
Proof.
  assert (Hraise : forall e, classical_Shor fuel N draws = Raise e ->
                             e = ValueError /\ N <= 1).
  { intros e. unfold classical_Shor.
    destruct (N mod 2 =? 0); [discriminate |].
    destruct (is_prime_spec N) as (b & Hb & _). rewrite Hb. simpl.
    destruct b; [discriminate |].
    destruct (Z_le_gt_dec N 1) as [Hle | Hgt].
    - intros Heq. split; [| exact Hle].
      destruct draws as [| d draws']; [discriminate |].
      simpl in Heq. unfold randint in Heq.
      destruct (Z.ltb_spec (N - 1) 2); [| lia]. simpl in Heq. congruence.
    - intros Heq. exfalso.
      destruct (Z.eq_dec N 2) as [-> | H2]; [vm_compute in Hb; discriminate |].
      exact (classical_Shor_loop_no_raise fuel N ltac:(lia) draws e Heq). }
  split; [| split].
  - intros HN e Heq. apply Hraise in Heq. lia.
  - exact Hraise.
  - intros HN Hodd d. unfold classical_Shor.
    destruct (Z.eqb_spec (N mod 2) 0); [contradiction |].
    unfold is_prime. destruct (Z.leb_spec N 1); [| lia]. simpl.
    unfold randint. destruct (Z.ltb_spec (N - 1) 2); [reflexivity | lia].
Qed.

(** The square of [x = a^(r/2) mod N] is 1 modulo [N] for an even period
    [r]. *)
Lemma half_power_square a N r :
  0 < r -> r mod 2 = 0 -> (a ^ r) mod N = 1 ->
  (pow_mod a (r / 2) N * pow_mod a (r / 2) N) mod N = 1.
Proof.
  intros Hr Hev Hv. unfold pow_mod.
  rewrite <- Zmult_mod, <- Z.pow_add_r by (apply Z.div_pos; lia).
  replace (r / 2 + r / 2) with r; [exact Hv |].
  pose proof (Z.div_mod r 2 ltac:(lia)). lia.
Qed.

Lemma square_1_divide N x : 1 < N -> (x * x) mod N = 1 -> (N | (x - 1) * (x + 1)).
Proof.
  intros HN Hsq. apply Z.mod_divide; [lia |].
  replace ((x - 1) * (x + 1)) with (x * x - 1) by ring.
  rewrite Zminus_mod, Hsq, (Z.mod_small 1 N) by lia. apply Z.mod_0_l. lia.
Qed.

Lemma classical_Shor_loop_step (fuel : nat) (N a : Z) (draws : list Z) :
  3 <= N -> N mod 2 = 1 -> (Z.to_nat N <= fuel)%nat ->
  (Z.gcd a N <> 1 ->
   classical_Shor_loop fuel N (a :: draws) = Ret (Z.gcd a N, N / Z.gcd a N)) /\
  (Z.gcd a N = 1 ->
   exists r, is_order a N r /\ find_period_classical fuel a N = Ret r /\
     classical_Shor_loop fuel N (a :: draws) =
     if (r mod 2 =? 0) && negb (pow_mod a (r / 2) N =? N - 1)
     then Ret (Z.gcd (pow_mod a (r / 2) N - 1) N,
               N / Z.gcd (pow_mod a (r / 2) N - 1) N)
     else classical_Shor_loop fuel N draws).
Proof.
  intros HN Hodd Hfuel. split.
  - intros Hg. simpl. unfold randint.
    destruct (Z.ltb_spec (N - 1) 2); [lia |]. simpl.
    destruct (Z.eqb_spec (Z.gcd a N) 1); [contradiction | reflexivity].
  - intros Hg.
    destruct (order_exists a N ltac:(lia) Hg) as (r & Hr & Hv & Hmin).
    assert (Hord : is_order a N r) by (split; [lia |]; split; assumption).
    assert (Hfind : find_period_classical fuel a N = Ret r)
      by (apply is_order_find_period_classical; [exact Hord | lia]).
    exists r. split; [exact Hord |]. split; [exact Hfind |].
    simpl. unfold randint.
    destruct (Z.ltb_spec (N - 1) 2); [lia |]. simpl.
    destruct (Z.eqb_spec (Z.gcd a N) 1); [| contradiction]. simpl.
    rewrite Hfind. simpl.
    destruct (Z.eqb_spec (r mod 2) 0) as [Hev | Hnev]; [| reflexivity].
    simpl. set (x := pow_mod a (r / 2) N).
    pose proof (pow_mod_unit a N ltac:(lia) Hg (r / 2) ltac:(apply Z.div_pos; lia)) as Hx.
    fold x in Hx.
    pose proof (half_power_square a N r ltac:(lia) Hev Hv) as Hsq. fold x in Hsq.
    pose proof (square_1_divide N x ltac:(lia) Hsq) as Hdiv.
    assert (Hx1 : x <> 1).
    { intros E. apply (Hmin (r / 2)); [| exact E].
      pose proof (Z.div_mod r 2 ltac:(lia)). lia. }
    assert (HpN : Z.gcd (x - 1) N <> N).
    { intros E. pose proof (Z.gcd_divide_l (x - 1) N) as Hd. rewrite E in Hd.
      destruct Hd as [k Hk]. destruct (Z_le_gt_dec k 0); nia. }
    destruct (Z.eqb_spec x (N - 1)) as [Hxm | Hxm]; simpl.
    + replace (x - 1) with (N - 2) by lia. replace (x + 1) with N by lia.
      assert (Hp1 : Z.gcd (N - 2) N = 1).
      { pose proof (Z.gcd_nonneg (N - 2) N) as Hnn.
        pose proof (Z.gcd_divide_l (N - 2) N) as Hl.
        pose proof (Z.gcd_divide_r (N - 2) N) as Hr'.
        assert (H2 : (Z.gcd (N - 2) N | 2)).
        { destruct Hl as [u Hu], Hr' as [v Hv']. exists (v - u). lia. }
        apply Z.divide_pos_le in H2; [| lia].
        assert (Hne0 : Z.gcd (N - 2) N <> 0).
        { intros E. rewrite E in Hr'. destruct Hr'; lia. }
        assert (Hne2 : Z.gcd (N - 2) N <> 2).
        { intros E. rewrite E in Hr'. apply Z.mod_divide in Hr'; lia. }
        lia. }
      rewrite Hp1, Z.gcd_diag, Z.abs_eq by lia.
      rewrite Z.eqb_refl. simpl. rewrite Z.eqb_refl. simpl.
      destruct (N =? 1); reflexivity.
    + assert (Hp1 : Z.gcd (x - 1) N <> 1).
      { intros E. apply Hxm.
        assert (HNx : (N | x + 1)).
        { apply (Z.gauss N (x - 1)); [exact Hdiv |]. rewrite Z.gcd_comm. exact E. }
        apply Z.divide_pos_le in HNx; lia. }
      destruct (Z.eqb_spec (Z.gcd (x - 1) N) 1); [contradiction |].
      destruct (Z.eqb_spec (Z.gcd (x - 1) N) N); [contradiction |].
      reflexivity.
Qed.

(** X5: what one draw [a] does to the loop of [classical_Shor], for an odd
    [N >= 3] and enough fuel for the order finding.  A draw that shares a
    factor with [N] ends the loop with that factor.  A coprime draw of order
    [r] ends it exactly when [r] is even and [x = a^(r/2) mod N] is not
    [N - 1], and then with [gcd(x - 1, N)]; otherwise the loop goes on to the
    next draw.  The second test, on [gcd(x + 1, N)], never produces the
    result. *)
Theorem classical_Shor_loop_draw (fuel : nat) (N a : Z) (draws : list Z) :
  3 <= N -> N mod 2 = 1 -> (Z.to_nat N <= fuel)%nat ->
  (Z.gcd a N <> 1 ->
   classical_Shor_loop fuel N (a :: draws) = Ret (Z.gcd a N, N / Z.gcd a N)) /\
  (Z.gcd a N = 1 ->
   exists r, is_order a N r /\ find_period_classical fuel a N = Ret r /\
     classical_Shor_loop fuel N (a :: draws) =
     if (r mod 2 =? 0) && negb (pow_mod a (r / 2) N =? N - 1)
     then Ret (Z.gcd (pow_mod a (r / 2) N - 1) N,
               N / Z.gcd (pow_mod a (r / 2) N - 1) N)
     else classical_Shor_loop fuel N draws).
Proof.
  exact (classical_Shor_loop_step fuel N a draws).
Qed.

Lemma classical_Shor_loop_draw_witness :
  (Z.gcd 14 15 <> 1 ->
   classical_Shor_loop 15 15 [14; 2] = Ret (Z.gcd 14 15, 15 / Z.gcd 14 15)) /\
  (Z.gcd 14 15 = 1 ->
   exists r, is_order 14 15 r /\ find_period_classical 15 14 15 = Ret r /\
     classical_Shor_loop 15 15 [14; 2] =
     if (r mod 2 =? 0) && negb (pow_mod 14 (r / 2) 15 =? 15 - 1)
     then Ret (Z.gcd (pow_mod 14 (r / 2) 15 - 1) 15,
               15 / Z.gcd (pow_mod 14 (r / 2) 15 - 1) 15)
     else classical_Shor_loop 15 15 [2]).
Proof.
  apply (classical_Shor_loop_draw 15 15 14 [2]); [lia | reflexivity | lia].
Defined.

(** ** Valid candidates and the order *)

Section OrderMultiples.

Variables a N r : Z.
Hypothesis HN : 1 < N.
Hypothesis Hord : is_order a N r.

Lemma power_of_period k : 0 <= k -> (a ^ (r * k)) mod N = 1.
Proof.
  intros Hk. destruct Hord as (Hr & Hv & _).
  rewrite Z.pow_mul_r by lia.
  rewrite Zpower_mod, Hv, Z.pow_1_l by lia.
  apply Z.mod_1_l. exact HN.
Qed.

Lemma valid_period_remainder c :
  0 <= c -> (a ^ c) mod N = (a ^ (c mod r)) mod N.
Proof.
  intros Hc. destruct Hord as (Hr & _ & _).
  pose proof (Z.mod_pos_bound c r Hr) as Hb.
  assert (Hq : 0 <= c / r) by (apply Z.div_pos; lia).
  assert (Hrq : 0 <= r * (c / r)) by (apply Z.mul_nonneg_nonneg; lia).
  rewrite (Z.div_mod c r) at 1 by lia.
  rewrite Z.pow_add_r by lia.
  rewrite Zmult_mod, power_of_period by exact Hq.
  rewrite Z.mul_1_l. apply Z.mod_mod. lia.
Qed.

Lemma valid_period_multiple c :
  0 <= c -> (valid_period a N c <-> (r | c)).
Proof.
  intros Hc. unfold valid_period. rewrite (valid_period_remainder c Hc).
  destruct Hord as (Hr & _ & Hmin).
  pose proof (Z.mod_pos_bound c r Hr) as Hb.
  rewrite <- (Z.mod_divide c r) by lia.
  split.
  - intros Hv. destruct (Z.eq_dec (c mod r) 0) as [E | E]; [exact E |].
    exfalso. apply (Hmin (c mod r)); [lia | exact Hv].
  - intros ->. simpl. apply Z.mod_1_l. exact HN.
Qed.

End OrderMultiples.

(** X6: the candidates that pass the test of [quantum_shor_qiskit] are
    exactly the multiples of the order that [find_period_classical]
    returns. *)
Theorem valid_period_iff_multiple_of_order (fuel : nat) (a N r c : Z) :
  N <> 0 -> find_period_classical fuel a N = Ret r -> 0 <= c ->
  (valid_period a N c <-> (r | c)).
Proof.
  intros HN Hfind Hc.
  destruct (find_period_classical_Ret fuel a N r HN Hfind) as (Hord & _ & _ & H1).
  apply valid_period_multiple; assumption.
Qed.

Lemma valid_period_iff_multiple_of_order_witness :
  valid_period 2 15 12 <-> (4 | 12).
Proof.
  apply (valid_period_iff_multiple_of_order 10 2 15 4 12); [lia | reflexivity | lia].
Defined.

(** X7: when the order of [a] is among the pooled (positive) candidates,
    [quantum_shor_qiskit] accepts exactly that order, whatever else the pool
    holds. *)
Theorem quantum_shor_qiskit_accepts_order
        (fuel : nat) (a N r : Z) (r_candidates : list Z) :
  N <> 0 -> find_period_classical fuel a N = Ret r ->
  In r r_candidates -> Forall (fun c => 0 < c) r_candidates ->
  accept_candidate a N (sorted (py_set r_candidates)) = Ret r.
Proof.
  intros HN Hfind Hin Hpos.
  destruct (find_period_classical_Ret fuel a N r HN Hfind) as (Hord & _ & _ & H1).
  apply accept_candidate_accepted. split; [exact HN |].
  split; [exact Hin |]. split; [apply Hord |].
  intros c Hc Hv. rewrite Forall_forall in Hpos. specialize (Hpos c Hc).
  apply (valid_period_multiple a N r H1 Hord c ltac:(lia)) in Hv.
  apply Z.divide_pos_le in Hv; lia.
Qed.

Lemma quantum_shor_qiskit_accepts_order_witness :
  accept_candidate 7 15 (sorted (py_set [12; 3; 4; 8; 1])) = Ret 4.
Proof.
  apply (quantum_shor_qiskit_accepts_order 10 7 15 4 [12; 3; 4; 8; 1]).
  - lia.
  - reflexivity.
  - simpl. tauto.
  - repeat constructor.
Defined.

(** ** When the recovered pair is a proper factorisation *)

Lemma divide_succ_iff N y : 1 < N -> ((N | y + 1) <-> y mod N = N - 1).
Proof.
  intros HN. pose proof (Z.mod_pos_bound y N ltac:(lia)) as Hb.
  pose proof (Z.div_mod y N ltac:(lia)) as Hdm. split.
  - intros [k Hk]. assert (Hm : y mod N + 1 = (k - y / N) * N) by lia.
    destruct (Z_le_gt_dec (k - y / N) 0); [nia |].
    destruct (Z_le_gt_dec (k - y / N) 1); nia.
  - intros Hm. exists (y / N + 1). lia.
Qed.

Lemma divide_pred_iff N y : 1 < N -> ((N | y - 1) <-> y mod N = 1).
Proof.
  intros HN. pose proof (Z.mod_pos_bound y N ltac:(lia)) as Hb.
  pose proof (Z.div_mod y N ltac:(lia)) as Hdm. split.
  - intros [k Hk]. assert (Hm : y mod N - 1 = (k - y / N) * N) by lia.
    destruct (Z_le_gt_dec (k - y / N) (-1)); [nia |].
    destruct (Z_le_gt_dec (k - y / N) 0); nia.
  - intros Hm. exists (y / N). lia.
Qed.

(** X8: [quantum_shor_qiskit] does not test its result.  For [N < 2^53],
    where [int(N/p)] is the exact cofactor, the pair is a proper
    factorisation exactly according to [x = a^(r/2) mod N] for the accepted
    [r]: if [x] is neither [1] nor [N - 1] then [1 < p <= q < N]; if
    [x = N - 1], or [x = 1] with [N] odd, the pair is the trivial
    [(1, N)]. *)
Theorem quantum_shor_qiskit_pair_nontrivial_iff
        (a N : Z) (r_candidates : list Z) (p q : Z) :
  N < 2 ^ 53 ->
  quantum_shor_qiskit_candidates a N r_candidates = Ret (p, q) ->
  exists r, accepted_period a N r_candidates r /\ r mod 2 = 0 /\
    (pow_mod a (r / 2) N <> 1 -> pow_mod a (r / 2) N <> N - 1 ->
     1 < p /\ p <= q /\ q < N) /\
    (pow_mod a (r / 2) N = N - 1 -> (p, q) = (1, N)) /\
    (pow_mod a (r / 2) N = 1 -> N mod 2 = 1 -> (p, q) = (1, N)).
Proof.
  intros Hsmall Heq.
  destruct (quantum_shor_qiskit_candidates_Ret _ _ _ _ _ Heq)
    as (Hle & r & Hacc & Hev & _ & _ & HN & q0 & _ & Hp & Hq & Hexact).
  destruct (Hexact Hsmall) as (Hq0 & Hprod). subst q0.
  exists r. split; [exact Hacc |]. split; [exact Hev |].
  destruct Hacc as (_ & Hv & _). unfold valid_period in Hv.
  assert (Hr : 0 <= r).
  { destruct (Z_lt_le_dec r 0) as [Hneg | Hnn]; [| exact Hnn].
    rewrite Z.pow_neg_r, Z.mod_0_l in Hv by lia. discriminate. }
  set (y := a ^ (r / 2)) in *.
  assert (Hysq : (N | (y - 1) * (y + 1))).
  { apply square_1_divide; [exact HN |]. unfold y.
    rewrite <- Z.pow_add_r by (apply Z.div_pos; lia).
    replace (r / 2 + r / 2) with r; [exact Hv |].
    pose proof (Z.div_mod r 2 ltac:(lia)). lia. }
  unfold pow_mod. fold y.
  set (p0 := Z.gcd (y + 1) N) in *.
  pose proof (Z.gcd_nonneg (y + 1) N) as Hnn. fold p0 in Hnn.
  assert (HpN : p0 = N <-> y mod N = N - 1).
  { rewrite <- divide_succ_iff by exact HN. unfold p0. rewrite Z.gcd_comm.
    symmetry. apply Z.divide_gcd_iff. lia. }
  split; [| split].
  - intros Hx1 HxN.
    assert (Hp1 : p0 <> 1).
    { intros E. apply Hx1. apply divide_pred_iff; [exact HN |].
      apply (Z.gauss N (y + 1)); [rewrite Z.mul_comm; exact Hysq |].
      rewrite Z.gcd_comm. exact E. }
    assert (HpN' : p0 <> N) by (intros E; apply HxN, HpN, E).
    destruct (gcd_pair_nontrivial (y + 1) N HN Hp1 HpN') as (_ & Hpb & Hqb).
    fold p0 in Hpb, Hqb. lia.
  - intros HxN. apply HpN in HxN. rewrite HxN in Hp, Hq.
    rewrite Z.div_same in Hp, Hq by lia. subst p q.
    rewrite Z.min_r, Z.max_l by lia. reflexivity.
  - intros Hx1 Hodd.
    assert (Hp1 : p0 = 1).
    { apply divide_pred_iff in Hx1; [| exact HN]. destruct Hx1 as [k Hk].
      unfold p0. replace (y + 1) with (2 + k * N) by lia.
      rewrite Z.gcd_comm, Z.gcd_add_mult_diag_r.
      pose proof (Z.gcd_nonneg N 2) as Hg0.
      pose proof (Z.gcd_divide_l N 2) as Hgl.
      pose proof (Z.gcd_divide_r N 2) as Hgr.
      apply Z.divide_pos_le in Hgr; [| lia].
      assert (Hne0 : Z.gcd N 2 <> 0) by (intros E; rewrite E in Hgl; destruct Hgl; lia).
      assert (Hne2 : Z.gcd N 2 <> 2).
      { intros E. rewrite E in Hgl. apply Z.mod_divide in Hgl; lia. }
      lia. }
    rewrite Hp1 in Hp, Hq. rewrite Z.div_1_r in Hp, Hq. subst p q.
    rewrite Z.min_l, Z.max_r by lia. reflexivity.
Qed.

Lemma quantum_shor_qiskit_pair_nontrivial_iff_witness :
  exists r, accepted_period 2 15 [8; 16] r /\ r mod 2 = 0 /\
    (pow_mod 2 (r / 2) 15 <> 1 -> pow_mod 2 (r / 2) 15 <> 15 - 1 ->
     1 < 1 /\ 1 <= 15 /\ 15 < 15) /\
    (pow_mod 2 (r / 2) 15 = 15 - 1 -> (1, 15) = (1, 15)) /\
    (pow_mod 2 (r / 2) 15 = 1 -> 15 mod 2 = 1 -> (1, 15) = (1, 15)).
Proof.
  apply (quantum_shor_qiskit_pair_nontrivial_iff 2 15 [8; 16] 1 15);
    [lia | reflexivity].
Defined.

(** ** The pool as a set *)

Lemma strictly_sorted_unique l1 :
  forall l2, StronglySorted Z.lt l1 -> StronglySorted Z.lt l2 ->
             (forall x, In x l1 <-> In x l2) -> l1 = l2.
Proof.
  induction l1 as [| x1 l1 IH]; intros l2 H1 H2 Hsame.
  - destruct l2 as [| x2 l2]; [reflexivity |].
    exfalso. apply (Hsame x2). left; reflexivity.
  - destruct l2 as [| x2 l2]; [exfalso; apply (Hsame x1); left; reflexivity |].
    inversion H1 as [| ? ? Hs1 Hall1]; subst.
    inversion H2 as [| ? ? Hs2 Hall2]; subst.
    rewrite Forall_forall in Hall1, Hall2.
    assert (Hhead : x1 = x2).
    { destruct (proj1 (Hsame x1) (or_introl eq_refl)) as [E | Hin1]; [auto |].
      destruct (proj2 (Hsame x2) (or_introl eq_refl)) as [E | Hin2]; [auto |].
      specialize (Hall2 _ Hin1). specialize (Hall1 _ Hin2). lia. }
    subst x2. f_equal. apply IH; try assumption.
    intros x. split; intros Hx.
    + destruct (proj1 (Hsame x) (or_intror Hx)) as [E | Hin]; [| exact Hin].
      specialize (Hall1 _ Hx). lia.
    + destruct (proj2 (Hsame x) (or_intror Hx)) as [E | Hin]; [| exact Hin].
      specialize (Hall2 _ Hx). lia.
Qed.

(** X9: the result of [quantum_shor_qiskit] depends on the pooled candidates
    as a set only: neither their order (the order of the measured keys) nor
    their repetitions matter. *)
Theorem quantum_shor_qiskit_pool_as_set (a N : Z) (l l' : list Z) :
  (forall c, In c l <-> In c l') ->
  sorted (py_set l) = sorted (py_set l') /\
  quantum_shor_qiskit_candidates a N l = quantum_shor_qiskit_candidates a N l'.
Proof.
  intros Hsame.
  assert (Heq : sorted (py_set l) = sorted (py_set l')).
  { apply strictly_sorted_unique; try apply sorted_set_ascending.
    intros x. rewrite !sorted_set_In. apply Hsame. }
  split; [exact Heq |]. unfold quantum_shor_qiskit_candidates. rewrite Heq. reflexivity.
Qed.

Lemma quantum_shor_qiskit_pool_as_set_witness :
  sorted (py_set [8; 4; 1; 4; 8]) = sorted (py_set [1; 8; 4]) /\
  quantum_shor_qiskit_candidates 2 15 [8; 4; 1; 4; 8] =
  quantum_shor_qiskit_candidates 2 15 [1; 8; 4].
Proof.
  apply (quantum_shor_qiskit_pool_as_set 2 15 [8; 4; 1; 4; 8] [1; 8; 4]).
  intros c. simpl. tauto.
Defined.

(** ** Degenerate moduli *)

Lemma accept_candidate_small_modulus a N l :
  N <= 1 ->
  accept_candidate a N l =
  match l with
  | [] => Raise PleaseSampleAgain
  | _ :: _ => if N =? 0 then Raise ZeroDivisionError else Raise PleaseSampleAgain
  end.
Proof.
  intros HN. induction l as [| c l IH]; [reflexivity |].
  simpl. unfold py_mod. destruct (Z.eqb_spec N 0) as [H0 | H0]; [reflexivity |].
  simpl.
  assert (Hm : (a ^ c) mod N <> 1).
  { destruct (Z.eq_dec N 1) as [-> | H1]; [rewrite Z.mod_1_r; discriminate |].
    pose proof (Z.mod_neg_bound (a ^ c) N ltac:(lia)). lia. }
  destruct (Z.eqb_spec ((a ^ c) mod N) 1); [contradiction |].
  rewrite IH. destruct l; reflexivity.
Qed.

(** X10: for a modulus [N <= 1] the routine never returns a pair: with
    [N = 0] and a non-empty pool the test [(a**cand) % N] raises
    [ZeroDivisionError]; otherwise no candidate can pass and "Please sample
    again" is raised.  An empty pool raises it for every modulus. *)
Theorem quantum_shor_qiskit_small_modulus (a N : Z) (r_candidates : list Z) :
  N <= 1 ->
  quantum_shor_qiskit_candidates a N r_candidates =
  match r_candidates with
  | [] => Raise PleaseSampleAgain
  | _ :: _ => if N =? 0 then Raise ZeroDivisionError else Raise PleaseSampleAgain
  end.
Proof.
  intros HN. unfold quantum_shor_qiskit_candidates.
  rewrite (accept_candidate_small_modulus a N _ HN).
  destruct r_candidates as [| c l]; [reflexivity |].
  destruct (sorted (py_set (c :: l))) as [| x s] eqn:Hs.
  - exfalso. assert (Hin : In c (sorted (py_set (c :: l))))
      by (apply sorted_set_In; left; reflexivity).
    rewrite Hs in Hin. exact Hin.
  - destruct (N =? 0); reflexivity.
Qed.

Lemma quantum_shor_qiskit_small_modulus_witness :
  quantum_shor_qiskit_candidates 2 0 [4; 2] = Raise ZeroDivisionError /\
  quantum_shor_qiskit_candidates 2 1 [4; 2] = Raise PleaseSampleAgain /\
  quantum_shor_qiskit_candidates 2 (-15) [4; 2] = Raise PleaseSampleAgain.
Proof.
  split; [| split].
  - apply (quantum_shor_qiskit_small_modulus 2 0 [4; 2]). lia.
  - apply (quantum_shor_qiskit_small_modulus 2 1 [4; 2]). lia.
  - apply (quantum_shor_qiskit_small_modulus 2 (-15) [4; 2]). lia.
Defined.

(** ** The first notebook's scan against the second's *)

Lemma accept_candidate_first a N l r :
  accept_candidate a N l = Ret r ->
  exists l1 l2, l = l1 ++ r :: l2 /\ valid_period a N r /\
                forall c, In c l1 -> ~ valid_period a N c.
Proof.
  revert r. induction l as [| c l IH]; intros r; simpl; [discriminate |].
  unfold py_mod. destruct (N =? 0); [discriminate |]. simpl.
  destruct (Z.eqb_spec ((a ^ c) mod N) 1) as [Hv | Hv].
  - intros Heq. injection Heq as <-. exists [], l.
    split; [reflexivity |]. split; [exact Hv |]. intros c' [].
  - intros Heq. destruct (IH r Heq) as (l1 & l2 & -> & Hvr & Hpre).
    exists (c :: l1), l2. split; [reflexivity |]. split; [exact Hvr |].
    intros c' [<- | Hc']; [exact Hv | apply Hpre, Hc'].
Qed.

Lemma quantum_shor_qiskit_candidates_resample a N l :
  N <> 0 ->
  (quantum_shor_qiskit_candidates a N l = Raise PleaseSampleAgain <->
   forall c, In c l -> ~ valid_period a N c).
Proof.
  intros H0. rewrite quantum_shor_qiskit_candidates_unfold.
  pose proof (accept_candidate_resample a N (sorted (py_set l)) H0) as Hres.
  destruct (accept_candidate a N (sorted (py_set l))) as [r | e |] eqn:Hscan.
  - apply accept_candidate_Ret in Hscan. destruct Hscan as (_ & Hin & Hv).
    apply (proj1 (sorted_set_In l r)) in Hin.
    pose proof (valid_period_modulus a N r H0 Hv) as HN.
    split; [| intros Hnone; exfalso; exact (Hnone r Hin Hv)].
    destruct (r mod 2 =? 0); [| discriminate].
    destruct (factor_recovery_spec a N r HN) as [(_ & ->) | (_ & _ & q0 & _ & ->)];
      discriminate.
  - assert (He : e = PleaseSampleAgain).
    { destruct (accept_candidate_cases a N (sorted (py_set l)) H0) as [(r & Hr) | Hr];
        congruence. }
    subst e. split; [| reflexivity]. intros _ c Hc.
    apply (proj1 Hres eq_refl). apply sorted_set_In. exact Hc.
  - split; [discriminate |]. intros Hnone.
    destruct (accept_candidate_cases a N (sorted (py_set l)) H0) as [(r & Hr) | Hr];
      congruence.
Qed.

(** X11: the validation cell of the first notebook scans the pool as it
    comes: it accepts the first valid candidate in pool order, where
    [quantum_shor_qiskit] accepts the least one, so its period is never
    smaller; both raise "Please sample again" on the same pools. *)
Theorem period_validation_cells_first_valid (a N : Z) (r_candidates : list Z) :
  N <> 0 ->
  (period_validation_cells a N r_candidates = Raise PleaseSampleAgain <->
   quantum_shor_qiskit_candidates a N r_candidates = Raise PleaseSampleAgain) /\
  (forall g, period_validation_cells a N r_candidates = Ret g ->
     exists l1 r' l2,
       r_candidates = l1 ++ r' :: l2 /\
       (forall c, In c l1 -> ~ valid_period a N c) /\
       valid_period a N r' /\ r' mod 2 = 0 /\
       g = Z.gcd (a ^ (r' / 2) + 1) N /\
       exists r, accepted_period a N r_candidates r /\ r <= r').
Proof.
  intros H0. split.
  - rewrite (quantum_shor_qiskit_candidates_resample a N r_candidates H0).
    rewrite <- (accept_candidate_resample a N r_candidates H0).
    unfold period_validation_cells.
    destruct (accept_candidate a N r_candidates) as [r | e |] eqn:Hscan; simpl.
    + split; [| discriminate].
      destruct (r mod 2 =? 0); simpl; [| discriminate].
      apply accept_candidate_Ret in Hscan. destruct Hscan as (_ & _ & Hv).
      pose proof (valid_period_modulus a N r H0 Hv) as HN.
      destruct (np_gcd_spec (a ^ (r / 2) + 1) N ltac:(lia)) as [(_ & _ & ->) | (_ & ->)];
        discriminate.
    + tauto.
    + split; discriminate.
  - intros g. unfold period_validation_cells.
    destruct (accept_candidate a N r_candidates) as [r' | e |] eqn:Hscan;
      simpl; try discriminate.
    destruct (Z.eqb_spec (r' mod 2) 0) as [Hev | Hodd]; simpl; [| discriminate].
    destruct (accept_candidate_first a N _ _ Hscan) as (l1 & l2 & Hl & Hv & Hpre).
    pose proof (valid_period_modulus a N r' H0 Hv) as HN.
    destruct (np_gcd_spec (a ^ (r' / 2) + 1) N ltac:(lia)) as [(_ & _ & ->) | (_ & ->)];
      [| discriminate].
    intros Heq. injection Heq as <-.
    exists l1, r', l2. repeat (split; [assumption || reflexivity |]).
    destruct (accept_candidate_cases a N (sorted (py_set r_candidates)) H0)
      as [(r & Hr) | Hnone].
    + exists r. apply accept_candidate_accepted in Hr. destruct Hr as (_ & Hacc).
      split; [exact Hacc |]. apply Hacc; [| exact Hv].
      rewrite Hl. apply in_or_app. right. left. reflexivity.
    + exfalso.
      apply (proj1 (accept_candidate_resample a N _ H0) Hnone r'); [| exact Hv].
      apply sorted_set_In. rewrite Hl. apply in_or_app. right. left. reflexivity.
Qed.

Lemma period_validation_cells_first_valid_witness :
  (period_validation_cells 2 15 [3; 8; 4] = Raise PleaseSampleAgain <->
   quantum_shor_qiskit_candidates 2 15 [3; 8; 4] = Raise PleaseSampleAgain) /\
  (forall g, period_validation_cells 2 15 [3; 8; 4] = Ret g ->
     exists l1 r' l2,
       [3; 8; 4] = l1 ++ r' :: l2 /\
       (forall c, In c l1 -> ~ valid_period 2 15 c) /\
       valid_period 2 15 r' /\ r' mod 2 = 0 /\
       g = Z.gcd (2 ^ (r' / 2) + 1) 15 /\
       exists r, accepted_period 2 15 [3; 8; 4] r /\ r <= r').
Proof.
  apply (period_validation_cells_first_valid 2 15 [3; 8; 4]). lia.
Defined.

(** ** Measured bitstrings as phases *)

Section BinaryToFloat.

Lemma bits_value_acc s :
  forall acc, bits_value s acc = acc * 2 ^ Z.of_nat (String.length s) + bits_value s 0.
Proof.
  induction s as [| b s IH]; intros acc; simpl String.length.
  - simpl. lia.
  - cbn [bits_value]. rewrite (IH (2 * acc + _)), (IH (2 * 0 + _)).
    rewrite Nat2Z.inj_succ, Z.pow_succ_r by lia. ring.
Qed.

Lemma bits_value_range s : 0 <= bits_value s 0 < 2 ^ Z.of_nat (String.length s).
Proof.
  induction s as [| b s IH]; simpl String.length.
  - simpl. lia.
  - cbn [bits_value]. rewrite bits_value_acc.
    rewrite Nat2Z.inj_succ, Z.pow_succ_r by lia.
    destruct (Ascii.eqb b "1"%char); lia.
Qed.

Lemma round_half_even_nonneg n d : 0 <= n -> 0 < d -> 0 <= round_half_even n d.
Proof.
  intros Hn Hd. unfold round_half_even.
  pose proof (Z.div_pos n d Hn Hd).
  destruct (2 * (n mod d) <? d); [lia |].
  destruct (d <? 2 * (n mod d)); [lia |].
  destruct (Z.even (n / d)); lia.
Qed.

Lemma double_mantissa_nonneg A B : 0 < A -> 0 < B -> 0 <= double_mantissa A B.
Proof.
  intros HA HB. unfold double_mantissa.
  destruct (Z.leb_spec 0 (double_exponent A B)).
  - apply round_half_even_nonneg; [lia |].
    apply Z.mul_pos_pos; [lia | apply Z.pow_pos_nonneg; lia].
  - apply round_half_even_nonneg; [| lia].
    apply Z.mul_nonneg_nonneg; [lia | apply Z.pow_nonneg; lia].
Qed.

(** With a negative exponent [e] and [B] dividing [A * 2^(-e)], nothing is
    rounded away. *)
Lemma double_mantissa_exact A B :
  0 < B -> double_exponent A B < 0 ->
  (B | A * 2 ^ (- double_exponent A B)) ->
  double_mantissa A B * B = A * 2 ^ (- double_exponent A B).
Proof.
  intros HB He Hdiv. unfold double_mantissa.
  destruct (Z.leb_spec 0 (double_exponent A B)); [lia |].
  rewrite round_half_even_exact by assumption.
  destruct Hdiv as [c ->]. rewrite Z.div_mul by lia. reflexivity.
Qed.

Lemma scaled_divide A B K k s :
  0 <= k <= s -> A * 2 ^ k = K * B -> (B | A * 2 ^ s).
Proof.
  intros Hks HK. exists (K * 2 ^ (s - k)).
  replace s with (k + (s - k)) at 1 by lia.
  rewrite Z.pow_add_r by lia. rewrite Z.mul_assoc, HK. ring.
Qed.

(** Rounding a multiple of [2^-k] to a double gives a multiple of
    [2^-k]. *)
Lemma double_of_ratio_dyadic A B k :
  0 < A -> 0 < B -> 0 <= k ->
  (exists K, A * 2 ^ k = K * B) ->
  dyadic k (double_of_ratio A B) /\ 0 <= Qnum (double_of_ratio A B).
Proof.
  intros HA HB Hk (K & HK).
  pose proof (double_mantissa_nonneg A B HA HB) as Hm.
  unfold dyadic, double_of_ratio.
  destruct (Z.leb_spec 0 (double_exponent A B)) as [He | He].
  - cbn [inject_Z Qnum Qden]. split.
    + eexists. rewrite Z.mul_1_r. reflexivity.
    + apply Z.mul_nonneg_nonneg; [lia | apply Z.pow_nonneg; lia].
  - set (e := double_exponent A B) in *.
    assert (Hpow : 0 < 2 ^ (- e)) by (apply Z.pow_pos_nonneg; lia).
    cbn [Qnum Qden]. rewrite Z2Pos.id by exact Hpow. split; [| exact Hm].
    destruct (Z_le_gt_dec (- e) k) as [Hle | Hgt].
    + exists (double_mantissa A B * 2 ^ (k + e)).
      replace k with ((k + e) + (- e)) at 1 by lia.
      rewrite Z.pow_add_r by lia. ring.
    + exists K.
      pose proof (double_mantissa_exact A B HB He
                    (scaled_divide A B K k (- e) ltac:(lia) HK)) as Hex.
      fold e in Hex.
      apply (Z.mul_reg_r _ _ B); [lia |].
      replace (double_mantissa A B * 2 ^ k * B)
        with (double_mantissa A B * B * 2 ^ k) by ring.
      rewrite Hex.
      replace (A * 2 ^ (- e) * 2 ^ k) with (A * 2 ^ k * 2 ^ (- e)) by ring.
      rewrite HK. ring.
Qed.

Lemma double_round_dyadic x k :
  0 <= Qnum x -> 0 <= k -> dyadic k x ->
  dyadic k (double_round x) /\ 0 <= Qnum (double_round x).
Proof.
  intros Hx Hk Hd. unfold double_round.
  destruct (Qnum x) as [| n | n] eqn:Hn.
  - split; [exists 0; reflexivity | simpl; lia].
  - apply double_of_ratio_dyadic; try lia.
    unfold dyadic in Hd. rewrite Hn in Hd. exact Hd.
  - lia.
Qed.

Lemma dyadic_plus k x y : dyadic k x -> dyadic k y -> dyadic k (x + y).
Proof.
  intros (Kx & Hx) (Ky & Hy). exists (Kx + Ky).
  unfold Qplus. cbn [Qnum Qden]. rewrite Pos2Z.inj_mul.
  replace ((Qnum x * QDen y + Qnum y * QDen x) * 2 ^ k)
    with (Qnum x * 2 ^ k * QDen y + Qnum y * 2 ^ k * QDen x) by ring.
  rewrite Hx, Hy. ring.
Qed.

Lemma dyadic_mono k k' x : 0 <= k <= k' -> dyadic k x -> dyadic k' x.
Proof.
  intros Hk (K & HK). exists (K * 2 ^ (k' - k)).
  replace k' with (k + (k' - k)) at 1 by lia.
  rewrite Z.pow_add_r by lia. rewrite Z.mul_assoc, HK. ring.
Qed.

Lemma power_of_two_den (i : nat) :
  Zpos (Pos.pow 2 (Pos.of_succ_nat i)) = 2 ^ Z.of_nat (S i).
Proof.
  rewrite Pos2Z.inj_pow, Zpos_P_of_succ_nat, Nat2Z.inj_succ. reflexivity.
Qed.

(** The double [2 ** -(i + 1)] is a multiple of [2^-(i+1)] (it is zero once
    the power underflows). *)
Lemma power_term_dyadic (i : nat) :
  dyadic (Z.of_nat (S i)) (double_round (1 # Pos.pow 2 (Pos.of_succ_nat i))) /\
  0 <= Qnum (double_round (1 # Pos.pow 2 (Pos.of_succ_nat i))).
Proof.
  apply double_round_dyadic; [simpl; lia | lia |].
  exists 1. cbn [Qnum Qden]. rewrite power_of_two_den. ring.
Qed.

(** Whatever is rounded on the way, the phase of an [n]-bit string is a
    non-negative multiple of [2^-n]. *)
Lemma binary_to_float_digits_dyadic s :
  forall i acc,
    0 <= Qnum acc -> dyadic (Z.of_nat (i + String.length s)) acc ->
    dyadic (Z.of_nat (i + String.length s)) (binary_to_float_digits i s acc) /\
    0 <= Qnum (binary_to_float_digits i s acc).
Proof.
  induction s as [| b s IH]; intros i acc Hacc Hd; simpl String.length in *.
  - split; assumption.
  - cbn [binary_to_float_digits].
    replace (i + S (String.length s))%nat with (S i + String.length s)%nat in * by lia.
    destruct (Ascii.eqb b "1"%char); [| apply IH; assumption].
    destruct (power_term_dyadic i) as (Ht & Ht0).
    set (t := double_round (1 # Pos.pow 2 (Pos.of_succ_nat i))) in *.
    assert (Hsum : dyadic (Z.of_nat (S i + String.length s)) (acc + t)).
    { apply dyadic_plus; [exact Hd |].
      apply (dyadic_mono (Z.of_nat (S i))); [lia | exact Ht]. }
    assert (Hsum0 : 0 <= Qnum (acc + t)).
    { unfold Qplus. cbn [Qnum].
      apply Z.add_nonneg_nonneg; apply Z.mul_nonneg_nonneg; lia. }
    destruct (double_round_dyadic (acc + t) (Z.of_nat (S i + String.length s))
                Hsum0 (Nat2Z.is_nonneg _) Hsum) as (Hr & Hr0).
    apply IH; assumption.
Qed.

(** [floor(log2(A/B))] is below [c] when [A/B < 2^c]. *)
Lemma floor_log2_ratio_lt A B c :
  0 < A -> 0 < B -> 0 <= c -> A < B * 2 ^ c -> floor_log2_ratio A B < c.
Proof.
  intros HA HB Hc Hlt. unfold floor_log2_ratio.
  destruct (Z.leb_spec B A) as [Hle | Hgt].
  - apply Z.log2_lt_pow2.
    + apply Z.div_str_pos. lia.
    + apply Z.div_lt_upper_bound; assumption.
  - assert (H2 : 2 <= (B + A - 1) / A) by (apply Z.div_le_lower_bound; lia).
    pose proof (Z.log2_up_pos ((B + A - 1) / A) ltac:(lia)). lia.
Qed.

(** A multiple [K / 2^k] of [2^-k] with [K < 2^53] and [1 <= k <= 1074] is a
    double: rounding leaves it as it is. *)
Lemma double_round_exact x K k :
  0 < K < 2 ^ 53 -> 1 <= k <= 53 ->
  Qnum x * 2 ^ k = K * QDen x ->
  Qnum (double_round x) * 2 ^ k = K * QDen (double_round x).
Proof.
  intros HK Hk Hx.
  assert (Hpk : 0 < 2 ^ k) by (apply Z.pow_pos_nonneg; lia).
  assert (HA : 0 < Qnum x) by nia.
  unfold double_round. destruct (Qnum x) as [| n | n] eqn:Hn; try lia.
  set (A := Zpos n) in *. set (B := Zpos (Qden x)) in *.
  assert (HB : 0 < B) by (unfold B; lia).
  assert (He : double_exponent A B <= - k).
  { unfold double_exponent.
    assert (HL : floor_log2_ratio A B < 53 - k).
    { apply floor_log2_ratio_lt; try lia.
      apply (Z.mul_lt_mono_pos_r (2 ^ k)); [exact Hpk |].
      replace (B * 2 ^ (53 - k) * 2 ^ k) with (B * (2 ^ (53 - k) * 2 ^ k)) by ring.
      rewrite <- Z.pow_add_r by lia. replace (53 - k + k) with 53 by lia.
      rewrite Hx. nia. }
    lia. }
  set (e := double_exponent A B) in *.
  pose proof (double_mantissa_exact A B HB ltac:(lia)
                (scaled_divide A B K k (- e) ltac:(lia) Hx)) as Hex.
  fold e in Hex.
  assert (Hpow : 0 < 2 ^ (- e)) by (apply Z.pow_pos_nonneg; lia).
  unfold double_of_ratio. fold e.
  destruct (Z.leb_spec 0 e); [lia |].
  cbn [Qnum Qden]. rewrite Z2Pos.id by exact Hpow.
  apply (Z.mul_reg_r _ _ B); [lia |].
  replace (double_mantissa A B * 2 ^ k * B)
    with (double_mantissa A B * B * 2 ^ k) by ring.
  rewrite Hex.
  replace (A * 2 ^ (- e) * 2 ^ k) with (A * 2 ^ k * 2 ^ (- e)) by ring.
  rewrite Hx. ring.
Qed.

(** Up to 53 bits no addition rounds: the phase is the binary fraction. *)
Lemma binary_to_float_digits_value s :
  forall i acc Ka,
    (i + String.length s <= 53)%nat ->
    0 <= Ka < 2 ^ Z.of_nat i ->
    Qnum acc * 2 ^ Z.of_nat i = Ka * QDen acc ->
    Qnum (binary_to_float_digits i s acc) * 2 ^ Z.of_nat (i + String.length s) =
    (Ka * 2 ^ Z.of_nat (String.length s) + bits_value s 0) *
    QDen (binary_to_float_digits i s acc).
Proof.
  induction s as [| b s IH]; intros i acc Ka Hlen HKa Hacc; simpl String.length in *.
  - cbn [binary_to_float_digits bits_value].
    rewrite Nat.add_0_r, Z.pow_0_r. rewrite Hacc. ring.
  - cbn [binary_to_float_digits bits_value].
    replace (i + S (String.length s))%nat with (S i + String.length s)%nat by lia.
    rewrite (bits_value_acc s (2 * 0 + _)).
    rewrite (Nat2Z.inj_succ (String.length s)), (Z.pow_succ_r _ (Z.of_nat (String.length s)))
      by lia.
    assert (Hpow : 2 ^ Z.of_nat (S i) = 2 * 2 ^ Z.of_nat i)
      by (rewrite Nat2Z.inj_succ, Z.pow_succ_r by lia; reflexivity).
    destruct (Ascii.eqb b "1"%char).
    + set (t := double_round (1 # Pos.pow 2 (Pos.of_succ_nat i))).
      assert (Ht : Qnum t * 2 ^ Z.of_nat (S i) = 1 * QDen t).
      { apply double_round_exact; [lia | lia |].
        cbn [Qnum Qden]. rewrite power_of_two_den. ring. }
      assert (Hsum : Qnum (acc + t) * 2 ^ Z.of_nat (S i) = (2 * Ka + 1) * QDen (acc + t)).
      { unfold Qplus. cbn [Qnum Qden]. rewrite Pos2Z.inj_mul.
        replace ((Qnum acc * QDen t + Qnum t * QDen acc) * 2 ^ Z.of_nat (S i))
          with (Qnum acc * 2 ^ Z.of_nat i * 2 * QDen t
                + Qnum t * 2 ^ Z.of_nat (S i) * QDen acc) by (rewrite Hpow; ring).
        rewrite Hacc, Ht. ring. }
      assert (Hbound : 0 < 2 * Ka + 1 < 2 ^ 53).
      { split; [lia |]. apply Z.lt_le_trans with (2 ^ Z.of_nat (S i)); [lia |].
        apply Z.pow_le_mono_r; lia. }
      pose proof (double_round_exact (acc + t) (2 * Ka + 1) (Z.of_nat (S i))
                    Hbound ltac:(lia) Hsum) as Hround.
      rewrite (IH (S i) _ (2 * Ka + 1) ltac:(lia) ltac:(lia) Hround). ring.
    + rewrite (IH (S i) acc (2 * Ka) ltac:(lia) ltac:(lia)
                 ltac:(rewrite Hpow; lia)). ring.
Qed.

End BinaryToFloat.

(** X12: [binary_to_float] returns one phase per bitstring, and each phase is a
    non-negative multiple of [2^-len(binary)].  For a bitstring of at most 53
    bits no addition rounds and the phase is the binary fraction
    [int(binary, 2) / 2^len(binary)], so it lies in [[0, 1)], the input range
    of [get_r_candidates].  The bound of 53 bits is sharp: the double sum for
    54 ones is exactly 1. *)
Theorem binary_to_float_value (binaries : list String.string) :
  length (binary_to_float binaries) = length binaries /\
  (forall k binary, nth_error binaries k = Some binary ->
     exists phase,
       nth_error (binary_to_float binaries) k = Some phase /\
       dyadic (Z.of_nat (String.length binary)) phase /\ (0 <= phase)%Q /\
       ((String.length binary <= 53)%nat ->
        (phase == bits_value binary 0 # Z.to_pos (2 ^ Z.of_nat (String.length binary)))%Q /\
        (phase < 1)%Q)) /\
  (exists phase,
     binary_to_float
       ["111111111111111111111111111111111111111111111111111111"%string] = [phase] /\
     (phase == 1)%Q).
Proof.
  unfold binary_to_float. split; [apply length_map |]. split.
  - intros k binary Hk. eexists. split; [apply map_nth_error; exact Hk |].
    set (phase := binary_to_float_digits 0 binary 0).
    set (n := String.length binary).
    destruct (binary_to_float_digits_dyadic binary 0%nat 0%Q ltac:(simpl; lia)
                ltac:(exists 0; reflexivity)) as (Hdy & Hnonneg).
    fold phase in Hdy, Hnonneg. cbn [Nat.add] in Hdy. fold n in Hdy.
    split; [exact Hdy |]. split.
    { unfold Qle. cbn [Qnum Qden]. lia. }
    intros Hlen.
    pose proof (binary_to_float_digits_value binary 0%nat 0%Q 0 ltac:(simpl; lia)
                  ltac:(simpl; lia) ltac:(reflexivity)) as Hval.
    fold phase in Hval. cbn [Nat.add] in Hval. fold n in Hval.
    pose proof (bits_value_range binary) as Hrange. fold n in Hrange.
    set (v := bits_value binary 0) in *.
    assert (Hpow : 0 < 2 ^ Z.of_nat n) by (apply Z.pow_pos_nonneg; lia).
    assert (Hphase : (phase == v # Z.to_pos (2 ^ Z.of_nat n))%Q).
    { unfold Qeq. cbn [Qnum Qden]. rewrite Z2Pos.id by exact Hpow. lia. }
    split; [exact Hphase |]. rewrite Hphase.
    unfold Qlt. cbn [Qnum Qden]. rewrite Z2Pos.id by exact Hpow. lia.
  - eexists. split; [vm_compute; reflexivity | reflexivity].
Qed.

(** ** Size of the candidates *)

Section CandidateBounds.

Lemma last_convergent_coprime cf :
  forall p_2 q_2 p_1 q_1,
    p_1 * q_2 - p_2 * q_1 = 1 \/ p_1 * q_2 - p_2 * q_1 = -1 ->
    Z.gcd p_1 q_1 = 1 ->
    Z.gcd (fst (last_convergent p_2 q_2 p_1 q_1 cf))
          (snd (last_convergent p_2 q_2 p_1 q_1 cf)) = 1.
Proof.
  induction cf as [| a cf IH]; intros p_2 q_2 p_1 q_1 Hdet Hg; [exact Hg |].
  cbn [last_convergent]. apply IH.
  - destruct Hdet; [right | left]; lia.
  - apply (gcd_of_det _ _ q_1 p_1). destruct Hdet; [right | left]; lia.
Qed.

Lemma last_map_snd (l : list (Z * Z)) d :
  last (map snd l) (snd d) = snd (last l d).
Proof.
  induction l as [| x l IH]; [reflexivity |].
  destruct l as [| y l]; [reflexivity |]. exact IH.
Qed.

Lemma last_In (l : list Z) d : l <> [] -> In (last l d) l.
Proof.
  induction l as [| x l IH]; [congruence |]. intros _.
  destruct l as [| y l]; [left; reflexivity |].
  right. apply IH. discriminate.
Qed.

Lemma sorted_le_last l :
  StronglySorted Z.le l -> forall d x, In x l -> x <= last l d.
Proof.
  induction 1 as [| y l Hs IH Hall]; intros d x Hx; [destruct Hx |].
  rewrite last_cons_default. destruct Hx as [<- | Hx].
  - destruct l as [| z l]; [simpl; lia |].
    rewrite Forall_forall in Hall.
    apply Hall, last_In. discriminate.
  - destruct l as [| z l]; [destruct Hx |].
    rewrite (IH y x Hx). lia.
Qed.

(** Two fractions in lowest terms with positive denominators and the same
    value have the same denominator. *)
Lemma coprime_cross_denominator P Qd n d :
  0 < Qd -> 0 < d -> Z.gcd P Qd = 1 -> Z.gcd n d = 1 -> P * d = Qd * n -> Qd = d.
Proof.
  intros HQ Hd HgP Hgn Hcross.
  apply Z.divide_antisym_nonneg; try lia.
  - apply (Z.gauss Qd P d); [exists n; lia | rewrite Z.gcd_comm; exact HgP].
  - apply (Z.gauss d n Qd); [exists P; lia | rewrite Z.gcd_comm; exact Hgn].
Qed.

Lemma get_r_candidates_reduced (approx : Q) :
  exists l,
    get_r_candidates approx = Ret l /\
    hd 0 l = 1 /\
    last l 0 = Zpos (Qden (Qred approx)) /\
    Forall (fun c => 1 <= c <= Zpos (Qden (Qred approx))) l.
Proof.
  unfold get_r_candidates, Rational. cbv zeta.
  set (n := Qnum (Qred approx)). set (d := Zpos (Qden (Qred approx))).
  assert (Hd : 0 < d) by (unfold d; lia).
  destruct (get_r_candidates_fraction n d Hd)
    as (rest & l & Hcf & Hterms & Hl & Hpairs & Hval & Hpos & Hle & Hlt & Hhd).
  rewrite Hcf. cbn [bind]. rewrite Hl. exists l.
  split; [reflexivity |]. split; [exact Hhd |].
  assert (Hne : l <> []) by (intros E; rewrite E in Hhd; discriminate).
  assert (Hlast : last l 0 = d).
  { pose proof (last_In l 0 Hne) as Hin.
    rewrite Forall_forall in Hpos. specialize (Hpos _ Hin).
    assert (Hls : last l 0 = snd (last_convergent 0 1 1 0 (n / d :: rest))).
    { rewrite Hpairs, <- last_convergent_pairs.
      exact (last_map_snd (convergent_pairs 0 1 1 0 (n / d :: rest)) (1, 0)). }
    rewrite last_convergent_pairs in Hval. rewrite Hls in Hpos |- *.
    apply (coprime_cross_denominator
             (fst (last_convergent 0 1 1 0 (n / d :: rest))) _ n d); try assumption.
    - apply last_convergent_coprime; [left; lia | reflexivity].
    - apply gcd_Qred. }
  split; [exact Hlast |].
  apply Forall_forall. intros c Hc.
  rewrite Forall_forall in Hpos. specialize (Hpos c Hc).
  pose proof (sorted_le_last l Hle 0 c Hc). lia.
Qed.

End CandidateBounds.

(** X13: on every rational phase [get_r_candidates] returns; the candidates
    start at 1 and end with the denominator of the phase in lowest terms,
    which bounds them all. *)
Theorem get_r_candidates_bounded (approx : Q) :
  exists l,
    get_r_candidates approx = Ret l /\
    hd 0 l = 1 /\
    last l 0 = Zpos (Qden (Qred approx)) /\
    Forall (fun c => 1 <= c <= Zpos (Qden (Qred approx))) l.
Proof.
  exact (get_r_candidates_reduced approx).
Qed.

(** X14: the candidates that [quantum_shor_qiskit] derives from a measured
    bitstring of [n] bits lie between 1 and [2^n]. *)
Theorem get_r_candidates_bitstring_bound (binary : String.string) :
  exists l,
    get_r_candidates (binary_to_float_digits 0 binary 0) = Ret l /\
    In 1 l /\
    Forall (fun c => 1 <= c <= 2 ^ Z.of_nat (String.length binary)) l.
Proof.
  set (phase := binary_to_float_digits 0 binary 0).
  destruct (get_r_candidates_reduced phase) as (l & Hl & Hhd & _ & Hall).
  exists l. split; [exact Hl |]. split.
  { destruct l as [| x l]; [discriminate Hhd |]. left. exact Hhd. }
  assert (Hden : Zpos (Qden (Qred phase)) <= 2 ^ Z.of_nat (String.length binary)).
  { destruct (binary_to_float_digits_dyadic binary 0%nat 0%Q ltac:(simpl; lia)
                ltac:(exists 0; reflexivity)) as ((v & Hval) & _).
    fold phase in Hval. cbn [Nat.add] in Hval.
    set (n := String.length binary) in *.
    assert (Hpow : 0 < 2 ^ Z.of_nat n) by (apply Z.pow_pos_nonneg; lia).
    pose proof (Qred_correct phase) as Hred.
    pose proof (gcd_Qred phase) as Hg.
    revert Hred. unfold Qeq. intros Hred.
    set (nr := Qnum (Qred phase)) in *. set (dr := Zpos (Qden (Qred phase))) in *.
    assert (Hcross : nr * 2 ^ Z.of_nat n = v * dr).
    { apply (Z.mul_reg_r _ _ (Zpos (Qden phase))); [lia |].
      replace (nr * 2 ^ Z.of_nat n * Zpos (Qden phase))
        with (nr * Zpos (Qden phase) * 2 ^ Z.of_nat n) by ring.
      rewrite Hred.
      replace (Qnum phase * dr * 2 ^ Z.of_nat n)
        with (Qnum phase * 2 ^ Z.of_nat n * dr) by ring.
      rewrite Hval. ring. }
    assert (Hdiv : (dr | 2 ^ Z.of_nat n)).
    { apply (Z.gauss dr nr); [exists v; lia | rewrite Z.gcd_comm; exact Hg]. }
    apply Z.divide_pos_le in Hdiv; lia. }
  eapply Forall_impl; [| exact Hall]. simpl. intros; lia.
Qed.

(** ** From the measurement to the outcome *)

Lemma pool_candidates_total phases :
  exists l, pool_candidates phases = Ret l /\
            Forall (fun c => 0 < c) l /\ (phases <> [] -> In 1 l).
Proof.
  induction phases as [| approx phases IH].
  - exists []. split; [reflexivity |]. split; [constructor | congruence].
  - destruct (get_r_candidates_reduced approx) as (l & Hl & Hhd & _ & Hall).
    destruct IH as (rest & Hrest & Hpos & _).
    exists (l ++ rest). cbn [pool_candidates]. rewrite Hl. cbn [bind].
    rewrite Hrest. cbn [bind]. split; [reflexivity |]. split.
    + apply Forall_app. split; [| exact Hpos].
      eapply Forall_impl; [| exact Hall]. simpl. intros; lia.
    + intros _. apply in_or_app. left.
      destruct l as [| x l]; [discriminate Hhd |]. left. exact Hhd.
Qed.

Lemma accept_candidate_raise a N l e :
  accept_candidate a N l = Raise e ->
  e = PleaseSampleAgain \/ (e = ZeroDivisionError /\ N = 0).
Proof.
  induction l as [| c l IH]; simpl.
  - intros Heq. left. congruence.
  - unfold py_mod. destruct (Z.eqb_spec N 0) as [H0 | H0]; simpl.
    + intros Heq. right. split; [congruence | exact H0].
    + destruct ((a ^ c) mod N =? 1); [discriminate | exact IH].
Qed.

Lemma accept_candidate_no_diverge a N l : accept_candidate a N l <> Diverge.
Proof.
  induction l as [| c l IH]; simpl; [discriminate |].
  unfold py_mod. destruct (N =? 0); simpl; [discriminate |].
  destruct ((a ^ c) mod N =? 1); [discriminate | exact IH].
Qed.

Lemma factor_recovery_outcome a N r_candidates r :
  accept_candidate a N (sorted (py_set r_candidates)) = Ret r ->
  factor_recovery a N r = Raise OverflowError \/
  exists p q, factor_recovery a N r = Ret (p, q).
Proof.
  intros Hscan. apply accept_candidate_accepted in Hscan.
  destruct Hscan as (H0 & _ & Hv & _).
  pose proof (valid_period_modulus a N r H0 Hv) as HN.
  destruct (factor_recovery_spec a N r HN) as [(_ & Hov) | (_ & _ & q0 & _ & Hret)].
  - left. exact Hov.
  - right. eauto.
Qed.

(** X15: the post-processing of [quantum_shor] and [quantum_shor_qiskit]
    always comes to an end: every phase yields candidates, all positive and
    with 1 among them, and the outcome is a pair [(p, q)] with [p <= q] (and
    [p * q = N] when [N < 2^53]), or one of the two exceptions of the
    routine, or the [OverflowError] of [np.gcd] on an argument outside
    int64, or, for [N = 0] only, the [ZeroDivisionError] of the test. *)
Theorem quantum_shor_outcomes (a N : Z) (meas_res : list Q) :
  exists r_candidates,
    pool_candidates meas_res = Ret r_candidates /\
    Forall (fun c => 0 < c) r_candidates /\
    (meas_res <> [] -> In 1 r_candidates) /\
    quantum_shor a N meas_res = quantum_shor_qiskit_candidates a N r_candidates /\
    ((exists p q, quantum_shor a N meas_res = Ret (p, q) /\ p <= q /\
                  (N < 2 ^ 53 -> p * q = N)) \/
     quantum_shor a N meas_res = Raise PleaseSampleAgain \/
     quantum_shor a N meas_res = Raise PleaseChooseAnotherA \/
     (quantum_shor a N meas_res = Raise OverflowError /\
      exists r, accepted_period a N r_candidates r /\ r mod 2 = 0 /\
                (~ int64 (a ^ (r / 2) + 1) \/ ~ int64 N)) \/
     (N = 0 /\ quantum_shor a N meas_res = Raise ZeroDivisionError)) /\
    forall keys, meas_res = binary_to_float keys ->
                 quantum_shor_qiskit a N keys = quantum_shor a N meas_res.
Proof.
  destruct (pool_candidates_total meas_res) as (l & Hl & Hpos & H1).
  exists l. split; [exact Hl |]. split; [exact Hpos |]. split; [exact H1 |].
  assert (Heq : quantum_shor a N meas_res = quantum_shor_qiskit_candidates a N l).
  { unfold quantum_shor. rewrite Hl. reflexivity. }
  split; [exact Heq |]. split.
  - rewrite Heq.
    destruct (quantum_shor_qiskit_candidates a N l) as [[p q] | e |] eqn:Hout.
    + left. exists p, q. split; [reflexivity |].
      apply quantum_shor_qiskit_candidates_Ret in Hout.
      destruct Hout as (Hle & r & _ & _ & _ & _ & _ & q0 & _ & _ & _ & Hexact).
      split; [exact Hle |]. intros Hsmall. apply Hexact. exact Hsmall.
    + right. rewrite quantum_shor_qiskit_candidates_unfold in Hout.
      destruct (accept_candidate a N (sorted (py_set l))) as [r | e' |] eqn:Hscan;
        try discriminate.
      * destruct (Z.eqb_spec (r mod 2) 0) as [Hev | Hodd].
        -- right. right. left.
           pose proof (proj1 (accept_candidate_accepted a N l r) Hscan) as (H0 & Hacc).
           pose proof (valid_period_modulus a N r H0 (proj1 (proj2 Hacc))) as HN.
           destruct (factor_recovery_spec a N r HN)
             as [(Hbig & Hov) | (_ & _ & q0 & _ & Hret)]; [| congruence].
           split; [congruence |]. exists r. auto.
        -- injection Hout as <-. right. left. reflexivity.
      * injection Hout as <-.
        destruct (accept_candidate_raise _ _ _ _ Hscan) as [-> | [-> HN]];
          [left; reflexivity | right; right; right; split; [exact HN | reflexivity]].
    + exfalso. rewrite quantum_shor_qiskit_candidates_unfold in Hout.
      pose proof (accept_candidate_no_diverge a N (sorted (py_set l))) as Hnd.
      destruct (accept_candidate a N (sorted (py_set l))) as [r | e' |] eqn:Hscan;
        try discriminate; [| congruence].
      destruct (r mod 2 =? 0); [| discriminate].
      destruct (factor_recovery_outcome a N l r Hscan) as [Hov | (p & q & Hret)];
        congruence.
  - intros keys ->. reflexivity.
Qed.

(** X16: a base [a] congruent to 1 modulo [N] is always turned down: the
    candidate 1 is in every non-empty pool and passes the test, and it is
    odd, so "Please choose another a" is raised whatever was measured. *)
Theorem quantum_shor_base_one (a N : Z) (meas_res : list Q) :
  N <> 0 -> a mod N = 1 -> meas_res <> [] ->
  quantum_shor a N meas_res = Raise PleaseChooseAnotherA /\
  forall keys, meas_res = binary_to_float keys ->
               quantum_shor_qiskit a N keys = Raise PleaseChooseAnotherA.
Proof.
  intros H0 Ha Hne.
  destruct (pool_candidates_total meas_res) as (l & Hl & Hpos & H1).
  specialize (H1 Hne).
  assert (Hacc : accept_candidate a N (sorted (py_set l)) = Ret 1).
  { apply accept_candidate_accepted. split; [exact H0 |].
    split; [exact H1 |]. split.
    - unfold valid_period. rewrite Z.pow_1_r. exact Ha.
    - intros c Hc _. rewrite Forall_forall in Hpos. specialize (Hpos c Hc). lia. }
  assert (Hout : quantum_shor a N meas_res = Raise PleaseChooseAnotherA).
  { unfold quantum_shor. rewrite Hl. cbn [bind].
    rewrite quantum_shor_qiskit_candidates_unfold, Hacc. reflexivity. }
  split; [exact Hout |]. intros keys Hk. rewrite <- Hout, Hk. reflexivity.
Qed.

Lemma quantum_shor_base_one_witness :
  quantum_shor 16 15 [3 # 4] = Raise PleaseChooseAnotherA /\
  forall keys, [3 # 4] = binary_to_float keys ->
               quantum_shor_qiskit 16 15 keys = Raise PleaseChooseAnotherA.
Proof.
  apply (quantum_shor_base_one 16 15 [3 # 4]); [lia | reflexivity | discriminate].
Defined.

(** ** The driver after several draws, and against the quantum routine *)

Lemma is_order_unique a N r r' : is_order a N r -> is_order a N r' -> r = r'.
Proof.
  intros (Hr & Hv & Hmin) (Hr' & Hv' & Hmin').
  destruct (Z.lt_trichotomy r r') as [Hlt | [E | Hgt]]; [| exact E |]; exfalso.
  - apply (Hmin' r); [lia | exact Hv].
  - apply (Hmin r'); [lia | exact Hv'].
Qed.

(** X17: with enough fuel for the order finding, the loop of
    [classical_Shor] is still running after the given draws exactly when
    every one of them was coprime to [N] with an odd order [r] or with
    [a^(r/2) mod N = N - 1]; any other draw has ended it. *)
Theorem classical_Shor_loop_running (fuel : nat) (N : Z) (draws : list Z) :
  3 <= N -> N mod 2 = 1 -> (Z.to_nat N <= fuel)%nat ->
  (classical_Shor_loop fuel N draws = Diverge <->
   Forall (fun a => Z.gcd a N = 1 /\
                    forall r, is_order a N r ->
                              r mod 2 <> 0 \/ pow_mod a (r / 2) N = N - 1) draws).
Proof.
  intros HN Hodd Hfuel. induction draws as [| a draws IH].
  - split; [constructor | reflexivity].
  - destruct (classical_Shor_loop_step fuel N a draws HN Hodd Hfuel) as (Hshare & Hcop).
    destruct (Z.eq_dec (Z.gcd a N) 1) as [Hg | Hg].
    + destruct (Hcop Hg) as (r & Hord & _ & ->).
      destruct (Z.eqb_spec (r mod 2) 0) as [Hev | Hnev];
        [destruct (Z.eqb_spec (pow_mod a (r / 2) N) (N - 1)) as [Hx | Hx] |]; simpl.
      * rewrite IH. split.
        -- intros H. constructor; [| exact H]. split; [exact Hg |].
           intros r' Hr'. rewrite <- (is_order_unique a N r r' Hord Hr'). auto.
        -- intros H. inversion H; assumption.
      * split; [discriminate |]. intros H. inversion H as [| ? ? [_ Hbad] _]; subst.
        destruct (Hbad r Hord); contradiction.
      * rewrite IH. split.
        -- intros H. constructor; [| exact H]. split; [exact Hg |].
           intros r' Hr'. rewrite <- (is_order_unique a N r r' Hord Hr'). auto.
        -- intros H. inversion H; assumption.
    + rewrite (Hshare Hg). split; [discriminate |].
      intros H. inversion H as [| ? ? [Hg' _] _]; contradiction.
Qed.

Lemma classical_Shor_loop_running_witness :
  classical_Shor_loop 15 15 [14; 4] = Diverge <->
  Forall (fun a => Z.gcd a 15 = 1 /\
                   forall r, is_order a 15 r ->
                             r mod 2 <> 0 \/ pow_mod a (r / 2) 15 = 15 - 1) [14; 4].
Proof.
  apply (classical_Shor_loop_running 15 15 [14; 4]); [lia | reflexivity | lia].
Defined.

(** For an odd [N] dividing [(x - 1)(x + 1)], the two gcds of the driver
    multiply to [N]. *)
Lemma gcd_pair_product N x :
  0 < N -> N mod 2 = 1 -> (N | (x - 1) * (x + 1)) ->
  Z.gcd (x - 1) N * Z.gcd (x + 1) N = N.
Proof.
  intros HN Hodd Hdiv.
  set (g1 := Z.gcd (x - 1) N). set (g2 := Z.gcd (x + 1) N).
  pose proof (Z.gcd_nonneg (x - 1) N) as Hg1. fold g1 in Hg1.
  pose proof (Z.gcd_nonneg (x + 1) N) as Hg2. fold g2 in Hg2.
  pose proof (Z.gcd_divide_l (x - 1) N) as H1l. fold g1 in H1l.
  pose proof (Z.gcd_divide_r (x - 1) N) as H1r. fold g1 in H1r.
  pose proof (Z.gcd_divide_l (x + 1) N) as H2l. fold g2 in H2l.
  pose proof (Z.gcd_divide_r (x + 1) N) as H2r. fold g2 in H2r.
  assert (Hcop : Z.gcd g2 g1 = 1).
  { pose proof (Z.gcd_nonneg g2 g1) as Hh.
    pose proof (Z.gcd_divide_l g2 g1) as Hhl.
    pose proof (Z.gcd_divide_r g2 g1) as Hhr.
    set (h := Z.gcd g2 g1) in *.
    assert (Hh2 : (h | 2)).
    { destruct (Z.divide_trans _ _ _ Hhl H2l) as [u Hu].
      destruct (Z.divide_trans _ _ _ Hhr H1l) as [v Hv].
      exists (u - v). lia. }
    assert (HhN : (h | N)) by exact (Z.divide_trans _ _ _ Hhl H2r).
    apply Z.divide_pos_le in Hh2; [| lia].
    assert (h <> 0) by (intros E; rewrite E in HhN; destruct HhN; lia).
    assert (h <> 2) by (intros E; rewrite E in HhN; apply Z.mod_divide in HhN; lia).
    lia. }
  apply Z.divide_antisym_nonneg; try lia.
  - destruct H1r as [c Hc].
    assert (Hg2c : (g2 | c)).
    { apply (Z.gauss g2 g1 c); [| exact Hcop].
      rewrite Z.mul_comm, <- Hc. exact H2r. }
    destruct Hg2c as [e He]. exists e. lia.
  - destruct (Z.gcd_bezout (x - 1) N g1 eq_refl) as (u1 & v1 & Hb1).
    destruct (Z.gcd_bezout (x + 1) N g2 eq_refl) as (u2 & v2 & Hb2).
    destruct Hdiv as [k Hk].
    exists (u1 * u2 * k + u1 * (x - 1) * v2 + v1 * u2 * (x + 1) + v1 * v2 * N).
    rewrite <- Hb1, <- Hb2. 
    replace ((u1 * (x - 1) + v1 * N) * (u2 * (x + 1) + v2 * N))
      with (u1 * u2 * ((x - 1) * (x + 1)) + u1 * (x - 1) * v2 * N
            + v1 * u2 * (x + 1) * N + v1 * v2 * N * N) by ring.
    rewrite Hk. ring.
Qed.

(** X18: within the range of the machine numbers the classical and the
    quantum routine find the same factors.  For an odd [N < 2^53], a coprime
    base [a] whose order [r] is even with [a^(r/2) mod N <> N - 1] and with
    [a^(r/2) + 1] in int64, and a pool of positive candidates containing
    [r], [classical_Shor] leaves its loop at the draw [a] with a proper pair
    [(p, q)] and [quantum_shor_qiskit] returns that pair, smaller element
    first. *)
Theorem quantum_classical_same_factors
        (fuel : nat) (N a r : Z) (draws r_candidates : list Z) :
  3 <= N -> N mod 2 = 1 -> (Z.to_nat N <= fuel)%nat ->
  Z.gcd a N = 1 -> is_order a N r ->
  r mod 2 = 0 -> pow_mod a (r / 2) N <> N - 1 ->
  In r r_candidates -> Forall (fun c => 0 < c) r_candidates ->
  N < 2 ^ 53 -> int64 (a ^ (r / 2) + 1) ->
  exists p q,
    classical_Shor_loop fuel N (a :: draws) = Ret (p, q) /\
    1 < p < N /\ 1 < q < N /\ p * q = N /\
    quantum_shor_qiskit_candidates a N r_candidates = Ret (Z.min p q, Z.max p q).
Proof.
  intros HN Hodd Hfuel Hg Hord Hev Hx Hin Hpos Hsmall Hfit.
  destruct (classical_Shor_loop_step fuel N a draws HN Hodd Hfuel) as (_ & Hcop).
  destruct (Hcop Hg) as (r' & Hord' & _ & Hloop).
  rewrite <- (is_order_unique a N r r' Hord Hord') in Hloop. clear r' Hord'.
  rewrite (proj2 (Z.eqb_eq _ _) Hev) in Hloop.
  destruct (Z.eqb_spec (pow_mod a (r / 2) N) (N - 1)) as [| _]; [contradiction |].
  cbn [andb negb] in Hloop.
  set (x := pow_mod a (r / 2) N) in *.
  set (g1 := Z.gcd (x - 1) N) in *.
  destruct (classical_Shor_loop_product fuel N _ _ _ Hloop) as (_ & Hprod & Hp0 & Hq0).
  destruct Hord as (Hr & Hv & Hmin).
  pose proof (half_power_square a N r Hr Hev Hv) as Hsq. fold x in Hsq.
  pose proof (square_1_divide N x ltac:(lia) Hsq) as Hdiv.
  pose proof (gcd_pair_product N x ltac:(lia) Hodd Hdiv) as Hg12. fold g1 in Hg12.
  assert (Hq : N / g1 = Z.gcd (x + 1) N) by nia.
  assert (Hy : Z.gcd (a ^ (r / 2) + 1) N = Z.gcd (x + 1) N).
  { unfold x, pow_mod.
    pose proof (Z.div_mod (a ^ (r / 2)) N ltac:(lia)) as Hdm.
    replace (a ^ (r / 2) + 1)
      with ((a ^ (r / 2)) mod N + 1 + (a ^ (r / 2) / N) * N) by lia.
    rewrite (Z.gcd_comm _ N), Z.gcd_add_mult_diag_r. apply Z.gcd_comm. }
  assert (Hx1 : x <> 1).
  { intros E. apply (Hmin (r / 2)); [| exact E].
    pose proof (Z.div_mod r 2 ltac:(lia)). lia. }
  assert (Hg1N : g1 <> N).
  { intros E. pose proof (Z.gcd_divide_l (x - 1) N) as Hd. fold g1 in Hd.
    rewrite E in Hd. destruct Hd as [k Hk].
    pose proof (Z.mod_pos_bound (a ^ (r / 2)) N ltac:(lia)) as Hb.
    fold (pow_mod a (r / 2) N) in Hb. fold x in Hb.
    destruct (Z_le_gt_dec k 0); [| nia].
    destruct (Z_le_gt_dec k (-1)); nia. }
  assert (Hg11 : g1 <> 1).
  { intros E. apply Hx.
    assert (HNx : (N | x + 1)).
    { apply (Z.gauss N (x - 1)); [exact Hdiv |]. rewrite Z.gcd_comm. exact E. }
    pose proof (Z.mod_pos_bound (a ^ (r / 2)) N ltac:(lia)) as Hb.
    fold (pow_mod a (r / 2) N) in Hb. fold x in Hb.
    apply Z.divide_pos_le in HNx; lia. }
  destruct (gcd_pair_nontrivial (x - 1) N ltac:(lia) Hg11 Hg1N) as (_ & Hpb & Hqb).
  fold g1 in Hpb, Hqb.
  exists g1, (N / g1). split; [exact Hloop |].
  split; [exact Hpb |]. split; [exact Hqb |]. split; [exact Hprod |].
  assert (Hacc : accept_candidate a N (sorted (py_set r_candidates)) = Ret r).
  { apply accept_candidate_accepted. split; [lia |].
    split; [exact Hin |]. split; [exact Hv |].
    intros c Hc Hvc. rewrite Forall_forall in Hpos. specialize (Hpos c Hc).
    apply (valid_period_multiple a N r ltac:(lia)
             (conj Hr (conj Hv Hmin)) c ltac:(lia)) in Hvc.
    apply Z.divide_pos_le in Hvc; lia. }
  rewrite quantum_shor_qiskit_candidates_unfold, Hacc.
  rewrite (proj2 (Z.eqb_eq _ _) Hev).
  rewrite (proj2 (factor_recovery_exact a N r ltac:(lia) Hfit)).
  rewrite Hy, <- Hq.
  assert (Hqq : N / (N / g1) = g1).
  { symmetry. apply Z.div_unique_exact; lia. }
  rewrite Hqq, Z.min_comm, Z.max_comm. reflexivity.
Qed.

Lemma quantum_classical_same_factors_witness :
  exists p q,
    classical_Shor_loop 21 21 [2; 5] = Ret (p, q) /\
    1 < p < 21 /\ 1 < q < 21 /\ p * q = 21 /\
    quantum_shor_qiskit_candidates 2 21 [1; 3; 6; 12] = Ret (Z.min p q, Z.max p q).
Proof.
  apply (quantum_classical_same_factors 21 21 2 6 [5] [1; 3; 6; 12]);
    try lia; try reflexivity.
  - split; [lia |]. split; [reflexivity |].
    intros e He. assert (Hc : e = 1 \/ e = 2 \/ e = 3 \/ e = 4 \/ e = 5) by lia.
    destruct Hc as [-> | [-> | [-> | [-> | ->]]]]; discriminate.
  - vm_compute. discriminate.
  - simpl. tauto.
  - repeat constructor.
  - vm_compute. split; discriminate.
Defined.

(** ** The error-rate bound *)

Section ErrorRateBound.

Lemma round_half_even_error n d :
  0 < d -> Z.abs (2 * (round_half_even n d * d - n)) <= d.
Proof.
  intros Hd. unfold round_half_even.
  pose proof (Z.div_mod n d ltac:(lia)) as Hdm.
  pose proof (Z.mod_pos_bound n d Hd) as Hr.
  destruct (Z.ltb_spec (2 * (n mod d)) d); [lia |].
  destruct (Z.ltb_spec d (2 * (n mod d))); [lia |].
  destruct (Z.even (n / d)); lia.
Qed.

(** Rounding a value of [(0, 2)] moves it by at most [2^-53]. *)
Lemma double_round_error x :
  (0 < x)%Q -> (x < 2)%Q -> (Qabs (double_round x - x) <= 1 # 2 ^ 53)%Q.
Proof.
  destruct x as [n d]. unfold Qlt. cbn [Qnum Qden]. intros Hpos Hlt.
  unfold double_round. cbn [Qnum Qden].
  destruct n as [| n | n]; try lia.
  set (A := Zpos n) in *. set (B := Zpos d) in *.
  assert (He : double_exponent A B <= - 52).
  { unfold double_exponent.
    pose proof (floor_log2_ratio_lt A B 1 ltac:(lia) ltac:(lia) ltac:(lia)
                  ltac:(rewrite Z.pow_1_r; lia)).
    lia. }
  unfold double_of_ratio, double_mantissa.
  set (e := double_exponent A B) in *.
  destruct (Z.leb_spec 0 e); [lia |].
  assert (HP : 2 ^ 52 <= 2 ^ (- e)) by (apply Z.pow_le_mono_r; lia).
  set (P := 2 ^ (- e)) in *.
  pose proof (round_half_even_error (A * P) B ltac:(lia)) as Herr.
  set (m := round_half_even (A * P) B) in *.
  unfold Qle, Qabs, Qminus, Qplus, Qopp. cbn [Qnum Qden].
  rewrite Pos2Z.inj_mul, Z2Pos.id by lia. fold B.
  replace (m * B + - A * P) with (m * B - A * P) by ring.
  change (Zpos (2 ^ 53)) with (2 * 2 ^ 52).
  set (D := Z.abs (m * B - A * P)) in *.
  assert (HD : 2 * D <= B) by (unfold D; lia).
  assert (0 <= D) by (unfold D; lia).
  nia.
Qed.

End ErrorRateBound.

Section ErrorRateGuard.

Lemma success_rate_refused_spec s :
  success_rate_refused s = true <-> s <> NaN /\ ~ in_unit_interval s.
Proof.
  unfold success_rate_refused, in_unit_interval.
  destruct s as [| b | x]; cbn [float64_le float64_lt orb].
  - split; [discriminate | intros [H _]; congruence].
  - split.
    + intros _. split; [discriminate | intros (x & Hx & _); discriminate].
    + intros _. destruct b; reflexivity.
  - rewrite orb_true_iff, negb_true_iff, Qle_bool_iff. split.
    + intros Hout. split; [discriminate |].
      intros (y & Hy & Hpos & Hle). injection Hy as <-.
      destruct Hout as [H0 | H1].
      * apply (Qlt_not_le _ _ Hpos H0).
      * apply Qle_bool_iff in Hle. congruence.
    + intros [_ Hnot].
      destruct (Qle_bool x 1) eqn:H1; [| right; reflexivity].
      left. apply Qnot_lt_le. intros Hpos. apply Hnot.
      exists x. split; [reflexivity |]. split; [exact Hpos |].
      apply Qle_bool_iff. exact H1.
Qed.

Lemma float64_of_pyint_no_refusal V e :
  float64_of_pyint V = Raise e -> e = OverflowError.
Proof.
  unfold float64_of_pyint. destruct (Z.abs (float64_of_int V) <? 2 ^ 1024); congruence.
Qed.

Lemma float64_of_pyint_exact V :
  0 <= V < 2 ^ 53 -> float64_of_pyint V = Ret (Finite (inject_Z V)).
Proof.
  intros HV. unfold float64_of_pyint. rewrite float64_of_int_exact by exact HV.
  assert (Hlt : Z.abs V < 2 ^ 1024).
  { apply Z.lt_trans with (2 ^ 53); [lia |]. apply Z.pow_lt_mono_r; lia. }
  apply Z.ltb_lt in Hlt. rewrite Hlt. reflexivity.
Qed.

End ErrorRateGuard.

(** C7: [error_rate_upper_bound(V, success_rate)] raises its exception
    exactly when [success_rate] is a number outside [(0, 1]]: a NaN passes
    both comparisons of the guard.  For a NaN or a success rate in [(0, 1]]
    it returns the double [1 - np.exp(np.log(success_rate)/V)] (the division
    raises [OverflowError] for an int [V] beyond the doubles; none below
    [2^53] is).  Success rate 1.5 is refused for every [V].  For [V = 1] and
    success rate 0.1 the result is within [tol + 2^-53] of 0.9 when the
    library's [exp(log(0.1)/1)] is within [tol] of 0.1. *)
Theorem error_rate_upper_bound_guard (np_log np_exp : float64 -> float64) :
  (forall V s,
      error_rate_upper_bound np_log np_exp V s = Raise SuccessRateError <->
      s <> NaN /\ ~ in_unit_interval s) /\
  (forall V s,
      s = NaN \/ in_unit_interval s ->
      error_rate_upper_bound np_log np_exp V s =
      (v <- float64_of_pyint V ;;
       Ret (float64_sub (Finite 1) (np_exp (float64_div (np_log s) v))))) /\
  (forall V s,
      0 <= V < 2 ^ 53 -> s = NaN \/ in_unit_interval s ->
      error_rate_upper_bound np_log np_exp V s =
      Ret (float64_sub (Finite 1)
             (np_exp (float64_div (np_log s) (Finite (inject_Z V)))))) /\
  (forall V, error_rate_upper_bound np_log np_exp V (Finite (3 # 2)) =
             Raise SuccessRateError) /\
  (forall e tol,
      np_exp (float64_div (np_log (Finite (double_round (1 # 10)))) (Finite 1)) =
      Finite e ->
      (Qabs (e - (1 # 10)) <= tol)%Q -> (tol <= 1 # 2)%Q ->
      exists res,
        error_rate_upper_bound np_log np_exp 1 (Finite (double_round (1 # 10))) =
        Ret (Finite res) /\
        (Qabs (res - (9 # 10)) <= tol + (1 # 2 ^ 53))%Q).
Proof.
  assert (Hpass : forall V s,
             s = NaN \/ in_unit_interval s ->
             error_rate_upper_bound np_log np_exp V s =
             (v <- float64_of_pyint V ;;
              Ret (float64_sub (Finite 1) (np_exp (float64_div (np_log s) v))))).
  { intros V s Hs. unfold error_rate_upper_bound.
    fold (success_rate_refused s).
    destruct (success_rate_refused s) eqn:Hg; [| reflexivity].
    apply success_rate_refused_spec in Hg. destruct Hg as [Hn Hout].
    destruct Hs; contradiction. }
  split; [| split; [exact Hpass | split; [| split]]].
  - intros V s. rewrite <- success_rate_refused_spec.
    unfold error_rate_upper_bound. fold (success_rate_refused s).
    destruct (success_rate_refused s); [split; reflexivity |].
    split; [| discriminate].
    destruct (float64_of_pyint V) as [v | e |] eqn:Hv; cbn [bind]; try discriminate.
    intros Heq. apply float64_of_pyint_no_refusal in Hv. congruence.
  - intros V s HV Hs. rewrite (Hpass V s Hs), (float64_of_pyint_exact V HV).
    reflexivity.
  - intros V. reflexivity.
  - intros e tol He Htol Hhalf.
    assert (Hin : in_unit_interval (Finite (double_round (1 # 10)))).
    { eexists. split; [reflexivity |]. split; vm_compute; congruence. }
    rewrite (Hpass 1 _ (or_intror Hin)).
    change (float64_of_pyint 1) with (Ret (Finite 1)). cbn [bind].
    rewrite He. cbn [float64_sub]. unfold float64_round.
    apply Qabs_Qle_condition in Htol. destruct Htol as [Hlo Hhi].
    assert (Hpos : (0 < 1 - e)%Q) by lra.
    assert (Hlt2 : (1 - e < 2)%Q) by lra.
    pose proof (double_round_error (1 - e) Hpos Hlt2) as Herr.
    set (res := double_round (1 - e)) in *.
    apply Qabs_Qle_condition in Herr. destruct Herr as [Hrlo Hrhi].
    assert (H53 : (1 # 2 ^ 53 <= 1)%Q) by (vm_compute; discriminate).
    assert (Hbig : (3 < inject_Z (2 ^ 1024))%Q) by reflexivity.
    assert (Hsmall : (inject_Z (- 2 ^ 1024) < -3)%Q) by reflexivity.
    destruct (Qle_bool (inject_Z (2 ^ 1024)) res) eqn:Hup.
    { apply Qle_bool_iff in Hup. lra. }
    destruct (Qle_bool res (inject_Z (- 2 ^ 1024))) eqn:Hdown.
    { apply Qle_bool_iff in Hdown. lra. }
    exists res. split; [reflexivity |].
    apply Qabs_Qle_condition. split; lra.
Qed.

Lemma error_rate_upper_bound_guard_witness :
  exists res,
    error_rate_upper_bound
      (fun _ => Finite (double_round (- (2302585092994046 # 1000000000000000))))
      (fun _ => Finite (double_round (1 # 10) + (1 # 2 ^ 56)))
      1 (Finite (double_round (1 # 10))) = Ret (Finite res) /\
    (Qabs (res - (9 # 10)) <= (1 # 2 ^ 50) + (1 # 2 ^ 53))%Q.
Proof.
  apply (proj2 (proj2 (proj2 (proj2
           (error_rate_upper_bound_guard
              (fun _ => Finite (double_round (- (2302585092994046 # 1000000000000000))))
              (fun _ => Finite (double_round (1 # 10) + (1 # 2 ^ 56)))))))
           (double_round (1 # 10) + (1 # 2 ^ 56))%Q (1 # 2 ^ 50)%Q).
  - reflexivity.
  - vm_compute. discriminate.
  - vm_compute. discriminate.
Defined.

(** C7 as stated fails at NaN: it is outside [(0, 1]] and nothing is
    raised. *)
Lemma error_rate_upper_bound_nan_counterexample :
  ~ (forall (np_log np_exp : float64 -> float64) (V : Z) (s : float64),
        error_rate_upper_bound np_log np_exp V s = Raise SuccessRateError <->
        ~ in_unit_interval s).
Proof.
  intros H.
  destruct (H (fun x => x) (fun x => x) 1 NaN) as [_ Hraise].
  assert (Hout : ~ in_unit_interval NaN) by (intros (x & Hx & _); discriminate).
  specialize (Hraise Hout). discriminate Hraise.
Qed.
